(** * ScholarManus: the agent step loop, the tool federation layer, the schema
    reconciler, the stuck detector and the blocking classifier

  A shallow embedding of
  - [app/agent/base.py]   (class [BaseAgent]),
  - [app/agent/mcp.py]    (class [MCPAgent]),
  - [app/tool/multi_mcp.py] (class [MultiMCPClients]),
  followed by the properties of the specification that concern them.

  Python [int] is [Z]; Python [str] is [string] (in the classifier, where
  the code counts and matches characters, a list of code points);
  [Optional[T]] is [option T]; an insertion-ordered [dict] whose order
  matters is an association list, a [dict] used as a finite map is a
  [gmap], a [set] is a [gset]. *)

From Stdlib Require Import ZArith DecimalString String Ascii.
From stdpp Require Import gmap strings list fin_maps.

(** ** Python values *)

Module Py.

(** The line feed, ["\n"]. *)
Definition nl : string := String (ascii_of_nat 10) EmptyString.

(** [str(n)] for an [int]. *)
Definition str_of_int (n : Z) : string := NilZero.string_of_int (Z.to_int n).

(** [f"{x}"] for an [Optional[str]]. *)
Definition str_of_opt (x : option string) : string :=
  match x with
  | None => "None"
  | Some s => s
  end.

(** Truth value of a [str]: the empty string is false. *)
Definition truthy (s : string) : bool :=
  match s with
  | EmptyString => false
  | String _ _ => true
  end.

(** Truth value of an [Optional[str]]: [None] and [""] are false. *)
Definition truthy_opt (x : option string) : bool :=
  match x with
  | None => false
  | Some s => truthy s
  end.

(** [sep.join(parts)]. *)
Definition join (sep : string) (parts : list string) : string :=
  String.concat sep parts.

(** The text after the last line feed of [s] (all of [s] when it has
    none): the last line of a newline-joined summary. *)
Fixpoint last_line_from (cur : string) (s : string) : string :=
  match s with
  | EmptyString => cur
  | String c rest =>
      if Ascii.eqb c (ascii_of_nat 10) then last_line_from rest rest
      else last_line_from cur rest
  end.

Definition last_line (s : string) : string := last_line_from s s.

(** Whether [s] holds a line feed. *)
Fixpoint has_nl (s : string) : bool :=
  match s with
  | EmptyString => false
  | String c rest => Ascii.eqb c (ascii_of_nat 10) || has_nl rest
  end.

(** Exceptions (instances of [Exception]) carry their class and message. *)
Record Exn := mkExn { exn_class : string; exn_msg : string }.

Definition RuntimeError (msg : string) : Exn := mkExn "RuntimeError" msg.
Definition ValueError (msg : string) : Exn := mkExn "ValueError" msg.

(** What a call can do: return, raise, or (for the model of a [while]
    loop that is given too little fuel) be cut off. *)
Inductive Outcome (A : Type) : Type :=
| Ret (x : A)
| Raise (e : Exn)
| Cutoff.

Arguments Ret {A} x.
Arguments Raise {A} e.
Arguments Cutoff {A}.

End Py.

Export Py.

(** ** app/schema.py *)

Module Schema.

(** Modelled from the spec: [app/schema.py] is not among the sources; the
    states are those of the spec's state machine (section 4.1). *)
Inductive AgentState : Set := IDLE | RUNNING | BLOCKED | FINISHED | ERROR.

#[global] Instance AgentState_eq_dec : EqDecision AgentState.
Proof. solve_decision. Defined.

Definition state_name (s : AgentState) : string :=
  match s with
  | IDLE => "IDLE"
  | RUNNING => "RUNNING"
  | BLOCKED => "BLOCKED"
  | FINISHED => "FINISHED"
  | ERROR => "ERROR"
  end.

(** Modelled from the spec: the role tags of a message (section 3). *)
Inductive Role : Set := user | system | assistant | tool.

#[global] Instance Role_eq_dec : EqDecision Role.
Proof. solve_decision. Defined.

(** Modelled from the spec: a message (section 3). *)
Record Message := mkMessage {
  role : Role;
  content : option string;
  base64_image : option string;
  tool_call_id : option string
}.

#[global] Instance Message_eq_dec : EqDecision Message.
Proof. solve_decision. Defined.

Definition user_message (c : string) (img : option string) : Message :=
  mkMessage user (Some c) img None.
Definition system_message (c : string) (img : option string) : Message :=
  mkMessage system (Some c) img None.
Definition assistant_message (c : string) (img : option string) : Message :=
  mkMessage assistant (Some c) img None.
Definition tool_message (c : string) (img : option string)
    (call_id : option string) : Message :=
  mkMessage tool (Some c) img call_id.

(** Modelled from the spec: [Memory.add_message] appends to the
    order-preserving, append-only message log (section 3). *)
Definition add_message (log : list Message) (m : Message) : list Message :=
  log ++ [m].

End Schema.

Export Schema.

(** ** app/agent/base.py *)

Module Agent.

Local Open Scope Z_scope.

(** The fields of [BaseAgent] that its methods read or write. *)
Record BaseAgent := mkAgent {
  name : string;
  next_step_prompt : option string;
  messages : list Message;
  state : AgentState;
  max_steps : Z;
  current_step : Z;
  block_reason : option string;
  user_input_required : bool;
  duplicate_threshold : Z
}.

(** [BaseAgent(name=n)]: every other field at its declared default. *)
Definition new_agent (n : string) : BaseAgent :=
  mkAgent n None [] IDLE 10 0 None false 2.

Definition set_state (s : AgentState) (a : BaseAgent) : BaseAgent :=
  mkAgent (name a) (next_step_prompt a) (messages a) s (max_steps a)
    (current_step a) (block_reason a) (user_input_required a)
    (duplicate_threshold a).

Definition set_current_step (n : Z) (a : BaseAgent) : BaseAgent :=
  mkAgent (name a) (next_step_prompt a) (messages a) (state a) (max_steps a)
    n (block_reason a) (user_input_required a) (duplicate_threshold a).

Definition set_block (r : option string) (u : bool) (a : BaseAgent)
    : BaseAgent :=
  mkAgent (name a) (next_step_prompt a) (messages a) (state a) (max_steps a)
    (current_step a) r u (duplicate_threshold a).

Definition set_messages (l : list Message) (a : BaseAgent) : BaseAgent :=
  mkAgent (name a) (next_step_prompt a) l (state a) (max_steps a)
    (current_step a) (block_reason a) (user_input_required a)
    (duplicate_threshold a).

Definition set_next_step_prompt (p : option string) (a : BaseAgent)
    : BaseAgent :=
  mkAgent (name a) p (messages a) (state a) (max_steps a)
    (current_step a) (block_reason a) (user_input_required a)
    (duplicate_threshold a).

(** [update_memory(role, content, base64_image, **kwargs)]. The role is the
    string the caller passes; [message_map] is the dictionary of the
    source. Only the tool constructor receives the extra keyword. *)
Definition message_map (r : string)
    : option (string → option string → option string → Message) :=
  if String.eqb r "user" then Some (λ c img _, user_message c img)
  else if String.eqb r "system" then Some (λ c img _, system_message c img)
  else if String.eqb r "assistant" then
    Some (λ c img _, assistant_message c img)
  else if String.eqb r "tool" then Some tool_message
  else None.

Definition update_memory (r : string) (c : string) (img : option string)
    (call_id : option string) (a : BaseAgent) : Outcome unit * BaseAgent :=
  match message_map r with
  | None => (Raise (ValueError ("Unsupported message role: " +:+ r)), a)
  | Some mk =>
      (Ret (), set_messages (add_message (messages a) (mk c img call_id)) a)
  end.

(** [block(reason, require_user_input)]. *)
Definition block (reason : string) (require_user_input : bool)
    (a : BaseAgent) : BaseAgent :=
  set_block (Some reason) require_user_input (set_state BLOCKED a).

(** [unblock(user_input)]: returns at once unless the agent is blocked. *)
Definition unblock (user_input : option string) (a : BaseAgent)
    : BaseAgent :=
  if bool_decide (state a ≠ BLOCKED) then a
  else
    let a1 :=
      match user_input with
      | Some s => if truthy s then snd (update_memory "user" s None None a)
                  else a
      | None => a
      end in
    set_block None false (set_state RUNNING a1).

(** [handle_stuck_state()]: the corrective prompt is put in front of the
    next-step prompt. The literal starts with a line continuation, so it
    begins with the eight blanks of the following source line. *)
Definition stuck_prompt : string :=
  "        Observed duplicate responses. Consider new strategies and avoid repeating ineffective paths already attempted.".

Definition handle_stuck_state (a : BaseAgent) : BaseAgent :=
  set_next_step_prompt
    (Some (stuck_prompt +:+ nl +:+ str_of_opt (next_step_prompt a))) a.

(** [is_stuck()]. *)
Definition is_duplicate (last_message msg : Message) : bool :=
  bool_decide (role msg = assistant)
  && bool_decide (content msg = content last_message).

Definition is_stuck (a : BaseAgent) : bool :=
  if (Z.of_nat (length (messages a)) <? 2) then false
  else
    match last (messages a) with
    | None => false
    | Some last_message =>
        if negb (truthy_opt (content last_message)) then false
        else
          let duplicate_count :=
            length (filter (λ msg, is_duplicate last_message msg = true)
                      (reverse (removelast (messages a)))) in
          bool_decide (Z.of_nat duplicate_count >= duplicate_threshold a)
    end.

(** *** The world a run acts on

    Besides the agent, a run touches the process-wide sandbox client and
    (in [MCPAgent]) the server session. The events record, in order, what
    the base-class code did; they are not read by the code. *)
Inductive Event : Type :=
| EvAssignState (s : AgentState)
    (** [self.state = s] executed by [run] or [state_context] *)
| EvStep (after : BaseAgent)
    (** [await self.step()] returned, leaving the agent as [after] *)
| EvStepRaised (e : Exn) (after : BaseAgent)
    (** [await self.step()] raised [e] *)
| EvSandboxCleanup
    (** [await SANDBOX_CLIENT.cleanup()] *)
| EvDisconnect
    (** [await self.mcp_clients.disconnect()] *).

Record World := mkWorld {
  agent : BaseAgent;
  events : list Event;
  mcp_session : bool
}.

(** Readings of an event list: how many step calls it holds, the agent the
    last step call that returned left behind, how many sandbox cleanups and
    disconnects it holds. *)
Fixpoint count_steps (tr : list Event) : nat :=
  match tr with
  | [] => 0%nat
  | EvStep _ :: tr' | EvStepRaised _ _ :: tr' => S (count_steps tr')
  | _ :: tr' => count_steps tr'
  end.

Fixpoint last_step (tr : list Event) : option BaseAgent :=
  match tr with
  | [] => None
  | ev :: tr' =>
      match last_step tr' with
      | Some b => Some b
      | None => match ev with
                | EvStep b => Some b
                | _ => None
                end
      end
  end.

Fixpoint last_assign (tr : list Event) : option AgentState :=
  match tr with
  | [] => None
  | ev :: tr' =>
      match last_assign tr' with
      | Some s => Some s
      | None => match ev with
                | EvAssignState s => Some s
                | _ => None
                end
      end
  end.

Fixpoint count_sandbox_cleanups (tr : list Event) : nat :=
  match tr with
  | [] => 0%nat
  | EvSandboxCleanup :: tr' => S (count_sandbox_cleanups tr')
  | _ :: tr' => count_sandbox_cleanups tr'
  end.

Fixpoint count_disconnects (tr : list Event) : nat :=
  match tr with
  | [] => 0%nat
  | EvDisconnect :: tr' => S (count_disconnects tr')
  | _ :: tr' => count_disconnects tr'
  end.

Definition M (A : Type) : Type := World → Outcome A * World.

#[global] Instance M_ret : MRet M := λ A x w, (Ret x, w).

#[global] Instance M_bind : MBind M := λ A B f m w,
  match m w with
  | (Ret x, w') => f x w'
  | (Raise e, w') => (Raise e, w')
  | (Cutoff, w') => (Cutoff, w')
  end.

Definition raise {A} (e : Exn) : M A := λ w, (Raise e, w).

Definition cutoff {A} : M A := λ w, (Cutoff, w).

Definition emit (ev : Event) : M unit := λ w,
  (Ret (), mkWorld (agent w) (events w ++ [ev]) (mcp_session w)).

Definition get {A} (f : BaseAgent → A) : M A := λ w, (Ret (f (agent w)), w).

Definition modify (f : BaseAgent → BaseAgent) : M unit := λ w,
  (Ret (), mkWorld (f (agent w)) (events w) (mcp_session w)).

(** Run a method that acts on the agent alone. *)
Definition on_agent {A} (f : BaseAgent → Outcome A * BaseAgent) : M A :=
  λ w, let '(r, a) := f (agent w) in
       (r, mkWorld a (events w) (mcp_session w)).

(** [self.state = s] *)
Definition assign_state (s : AgentState) : M unit :=
  _ ← modify (set_state s); emit (EvAssignState s).

(** [try: body / except Exception as e: handler; raise e / finally: final] *)
Definition try_reraise_finally {A} (body : M A) (handler final : M unit)
    : M A := λ w,
  match body w with
  | (Ret x, w') => (_ ← final; mret x) w'
  | (Raise e, w') => (_ ← handler; _ ← final; raise e) w'
  | (Cutoff, w') => (Cutoff, w')
  end.

(** [state_context(new_state)], with the body of the [async with] block as
    [body]: the [except Exception] clause assigns [ERROR] and re-raises,
    the [finally] clause assigns the state saved on entry. [new_state] is an
    [AgentState] by its type, so the [isinstance] guard never fires. *)
Definition state_context {A} (new_state : AgentState) (body : M A) : M A :=
  previous_state ← get state;
  _ ← assign_state new_state;
  try_reraise_finally body
    (assign_state ERROR) (assign_state previous_state).

Section Run.

(** The abstract method [step]: what it returns or raises, and the agent
    it leaves behind. *)
Variable step : BaseAgent → Outcome string * BaseAgent.

Definition call_step : M string := λ w,
  let '(r, a) := step (agent w) in
  let ev := match r with
            | Raise e => EvStepRaised e a
            | _ => EvStep a
            end in
  (r, mkWorld a (events w ++ [ev]) (mcp_session w)).

Definition step_record (a : BaseAgent) (step_result : string) : string :=
  "Step " +:+ str_of_int (current_step a) +:+ ": " +:+ step_result.

(** The [while] loop of [run]; [results] is the list built so far. One
    unit of fuel is spent per iteration. *)
Fixpoint run_loop (fuel : nat) (results : list string)
    : M (list string) :=
  a ← get id;
  if bool_decide (current_step a < max_steps a)
     && bool_decide (state a ≠ FINISHED)
     && bool_decide (state a ≠ BLOCKED)
  then
    match fuel with
    | O => cutoff
    | S fuel' =>
        _ ← modify (set_current_step (current_step a + 1));
        step_result ← call_step;
        a ← get id;
        if bool_decide (state a = BLOCKED) then
          let results := results ++ [step_record a step_result] in
          let results :=
            results ++ ["Blocked: " +:+ str_of_opt (block_reason a)] in
          let results :=
            if user_input_required a
            then results ++ ["Waiting for user input to continue"]
            else results in
          mret results
        else
          _ ← (if is_stuck a then modify handle_stuck_state
                else mret ());
          a ← get id;
          run_loop fuel' (results ++ [step_record a step_result])
    end
  else mret results.

(** The record appended when the step budget is used up. *)
Definition termination_record (n : Z) : string :=
  "Terminated: Reached max steps (" +:+ str_of_int n +:+ ")".

(** The statements after the loop, still inside the context. *)
Definition after_loop (results : list string) : M (list string) :=
  a ← get id;
  if bool_decide (current_step a >= max_steps a)
     && bool_decide (state a ≠ BLOCKED)
  then
    _ ← modify (set_current_step 0);
    _ ← assign_state IDLE;
    a ← get id;
    mret (results ++ [termination_record (max_steps a)])
  else mret results.

(** The statements of [run] before the context, in source order: the state
    guard, the initial request, the resume record. *)
Definition check_runnable : M unit :=
  s ← get state;
  if bool_decide (s ≠ IDLE) && bool_decide (s ≠ BLOCKED) then
    raise (RuntimeError ("Cannot run agent from state: " +:+ state_name s))
  else mret ().

Definition record_request (request : option string) : M unit :=
  s ← get state;
  if bool_decide (s = IDLE) && truthy_opt request then
    on_agent (update_memory "user" (default "" request) None None)
  else mret ().

Definition resume_if_blocked (results : list string) : M (list string) :=
  a ← get id;
  if bool_decide (state a = BLOCKED) then
    _ ← assign_state RUNNING;
    mret (results ++ ["Resuming from blocked state: "
                      +:+ str_of_opt (block_reason a)])
  else mret results.

(** The statement after the context: the sandbox is cleaned up unless the
    agent is blocked. *)
Definition cleanup_unless_blocked : M unit :=
  s ← get state;
  if bool_decide (s ≠ BLOCKED) then emit EvSandboxCleanup else mret ().

Definition summary (results : list string) : string :=
  match results with
  | [] => "No steps executed"
  | _ => join nl results
  end.

(** [BaseAgent.run(request)]. *)
Definition run (fuel : nat) (request : option string) : M string :=
  _ ← check_runnable;
  _ ← record_request request;
  results ← resume_if_blocked [];
  results ← state_context RUNNING
              (results ← run_loop fuel results; after_loop results);
  _ ← cleanup_unless_blocked;
  mret (summary results).

End Run.

(** *** Notions used to state the properties *)

(** The loop test of [run]. *)
Definition loop_test (a : BaseAgent) : bool :=
  bool_decide (current_step a < max_steps a)
  && bool_decide (state a ≠ FINISHED)
  && bool_decide (state a ≠ BLOCKED).

(** The world after [self.state = s]. *)
Definition assigned (s : AgentState) (w : World) : World :=
  mkWorld (set_state s (agent w)) (events w ++ [EvAssignState s])
    (mcp_session w).

(** The prior state: the state saved on entering the context. From [IDLE]
    it is [IDLE]; from [BLOCKED] it is [RUNNING], which [run] assigns by hand
    before it enters the context. *)
Definition prior_state (entry : AgentState) : AgentState :=
  if bool_decide (entry = IDLE) then IDLE else RUNNING.

(** The agent [a] as [run] hands it to the first loop test: the request is
    in the log when the run starts from [IDLE] with a non-empty request, and
    the state is [RUNNING]. *)
Definition loop_entry (request : option string) (a : BaseAgent)
    : BaseAgent :=
  set_state RUNNING
    (if bool_decide (state a = IDLE) && truthy_opt request
     then (update_memory "user" (default "" request) None None a).2
     else a).

(** [raises_after step n a e b]: starting with the agent [a] at the loop
    test, [n] iterations run to their end (the test passes, the counter is
    incremented, the step call returns and has not blocked the agent, the
    stuck check is made), and in the next iteration the test passes, the
    counter is incremented and the step call raises [e], leaving the agent
    as [b]. *)
Inductive raises_after (step : BaseAgent → Outcome string * BaseAgent)
    : nat → BaseAgent → Exn → BaseAgent → Prop :=
| raises_now a e b :
    loop_test a = true →
    step (set_current_step (current_step a + 1) a) = (Raise e, b) →
    raises_after step 0 a e b
| raises_later n a step_result a2 e b :
    loop_test a = true →
    step (set_current_step (current_step a + 1) a) = (Ret step_result, a2) →
    state a2 ≠ BLOCKED →
    raises_after step n
      (if is_stuck a2 then handle_stuck_state a2 else a2) e b →
    raises_after step (S n) a e b.

(** The step-budget property in the words of the spec: a run from [w]
    returns after exactly [max_steps] step calls, idle, with the counter at
    0 and the termination record as the last line of its summary. *)
Definition budget_property (step : BaseAgent → Outcome string * BaseAgent)
    (request : option string) (w : World) : Prop :=
  ∃ fuel text w' tr,
    run step fuel request w = (Ret text, w')
    ∧ events w' = events w ++ tr
    ∧ Z.of_nat (count_steps tr) = max_steps (agent w)
    ∧ state (agent w') = IDLE
    ∧ current_step (agent w') = 0
    ∧ last_line text = termination_record (max_steps (agent w)).

(** A step function that never blocks, never finishes and never raises. *)
Definition keeps_running (step : BaseAgent → Outcome string * BaseAgent)
    : Prop :=
  ∀ a, (∃ r, (step a).1 = Ret r)
       ∧ (state a ≠ BLOCKED → state (step a).2 ≠ BLOCKED)
       ∧ (state a ≠ FINISHED → state (step a).2 ≠ FINISHED).

(** A step function that leaves the loop counters alone. *)
Definition keeps_counters (step : BaseAgent → Outcome string * BaseAgent)
    : Prop :=
  ∀ a, current_step (step a).2 = current_step a
       ∧ max_steps (step a).2 = max_steps a.

(** How many messages before the last are assistant messages with exactly
    the content of [m]. *)
Definition prior_matches (a : BaseAgent) (m : Message) : nat :=
  length (filter (λ msg, role msg = assistant ∧ content msg = content m)
            (removelast (messages a))).

(** The stuck-detector property in the words of the spec, for an agent whose
    latest message is a non-empty assistant message. *)
Definition stuck_property (a : BaseAgent) : Prop :=
  ∀ m, last (messages a) = Some m →
       role m = assistant →
       truthy_opt (content m) = true →
       (is_stuck a = true
        ↔ Z.of_nat (prior_matches a m) >= duplicate_threshold a).

(** The data-model invariant of the spec: a block reason is recorded exactly
    while the agent is blocked. *)
Definition block_invariant (a : BaseAgent) : Prop :=
  block_reason a ≠ None ↔ state a = BLOCKED.

End Agent.

(** ** app/agent/mcp.py: the schema reconciler and the run wrapper *)

Module MCP.

Import Agent.

(** What [logger.info] is told by [_refresh_tools]. *)
Inductive LogEntry : Type :=
| LogAdded (names : list string)
| LogRemoved (names : list string)
| LogChanged (names : list string).

Section Reconciler.

(** A tool's input schema: compared with [!=], nothing else. *)
Context {Schema : Type} `{!EqDecision Schema}.

(** The fields of [MCPAgent] that [_refresh_tools] reads or writes. *)
Record MCPAgent := mkMCPAgent {
  base : BaseAgent;
  tool_schemas : gmap string Schema;
  log : list LogEntry
}.

(** [{tool.name: tool.inputSchema for tool in response.tools}]: a later
    entry of the same name replaces an earlier one. *)
Definition schemas_of (tools : list (string * Schema)) : gmap string Schema :=
  foldl (λ m t, <[t.1 := t.2]> m) ∅ tools.

Definition remember (m : Message) (a : MCPAgent) : MCPAgent :=
  mkMCPAgent (set_messages (add_message (messages (base a)) m) (base a))
    (tool_schemas a) (log a).

Definition info (e : LogEntry) (a : MCPAgent) : MCPAgent :=
  mkMCPAgent (base a) (tool_schemas a) (log a ++ [e]).

(** The truth value of a list: non-empty. *)
Definition nonempty {A} (l : list A) : bool :=
  match l with
  | [] => false
  | _ => true
  end.

(** The block of [_refresh_tools] that determines the added, removed and
    changed tools from the live and the stored schemas. A [set] is turned
    into a list in the order of [elements]. *)
Definition tool_changes (current_tools previous_tools : gmap string Schema)
    : list string * list string * list string :=
  let current_names : gset string := dom current_tools in
  let previous_names : gset string := dom previous_tools in
  let added_tools := elements (current_names ∖ previous_names) in
  let removed_tools := elements (previous_names ∖ current_names) in
  let changed_tools :=
    filter (λ name, current_tools !! name ≠ previous_tools !! name)
      (elements (current_names ∩ previous_names)) in
  (added_tools, removed_tools, changed_tools).

(** [_refresh_tools()]. [session] is [None] when there is no session, and
    otherwise holds the tools the server lists. The result is the returned
    pair and the agent afterwards. *)
Definition _refresh_tools (session : option (list (string * Schema)))
    (a : MCPAgent) : (list string * list string) * MCPAgent :=
  match session with
  | None => (([], []), a)
  | Some response_tools =>
      let current_tools := schemas_of response_tools in
      let '(added_tools, removed_tools, changed_tools) :=
        tool_changes current_tools (tool_schemas a) in
      let a := mkMCPAgent (base a) current_tools (log a) in
      let a :=
        if nonempty added_tools then
          remember
            (system_message
               ("New tools available: " +:+ join ", " added_tools) None)
            (info (LogAdded added_tools) a)
        else a in
      let a :=
        if nonempty removed_tools then
          remember
            (system_message
               ("Tools no longer available: " +:+ join ", " removed_tools)
               None)
            (info (LogRemoved removed_tools) a)
        else a in
      let a :=
        if nonempty changed_tools then info (LogChanged changed_tools) a
        else a in
      ((added_tools, removed_tools), a)
  end.

(** The names [_refresh_tools] logs as changed. *)
Definition logged_changes (entries : list LogEntry) : list string :=
  flat_map (λ e, match e with
                 | LogChanged names => names
                 | _ => []
                 end) entries.

(** The system messages a pass appends for its added and removed tools. *)
Definition announcements (added_tools removed_tools : list string)
    : list Message :=
  (if nonempty added_tools then
     [system_message ("New tools available: " +:+ join ", " added_tools)
        None]
   else [])
  ++ (if nonempty removed_tools then
        [system_message
           ("Tools no longer available: " +:+ join ", " removed_tools) None]
      else []).

End Reconciler.

Arguments MCPAgent Schema : clear implicits.

(** Modelled from the spec: [MCPClients.disconnect] is not among the
    sources; disconnecting releases the link (section 5), after which there
    is no session. [cleanup()] disconnects only when there is one. *)
Definition cleanup : M unit := λ w,
  if mcp_session w
  then (Ret (), mkWorld (agent w) (events w ++ [EvDisconnect]) false)
  else (Ret (), w).

(** [try: body / finally: final] *)
Definition try_finally {A} (body : M A) (final : M unit) : M A := λ w,
  match body w with
  | (Ret x, w') => (_ ← final; mret x) w'
  | (Raise e, w') => (_ ← final; raise e) w'
  | (Cutoff, w') => (Cutoff, w')
  end.

(** [MCPAgent.run(request)], over the [run] it inherits. *)
Definition run (super_run : option string → M string)
    (request : option string) : M string :=
  try_finally (super_run request) cleanup.

End MCP.

(** ** app/tool/multi_mcp.py: the tool federation layer *)

Module Federation.


(** A tool object; of its attributes only the name is written here. *)
Record Tool := mkTool { tool_name : string }.

(** An insertion-ordered [dict] with [str] keys: [k in d], [d[k]] and
    [d[k] = v], which keeps the place of a key already present. *)
Section Dict.

Context {V : Type}.

Fixpoint dict_get (k : string) (d : list (string * V)) : option V :=
  match d with
  | [] => None
  | (k', v) :: d' => if String.eqb k k' then Some v else dict_get k d'
  end.

Definition dict_has (k : string) (d : list (string * V)) : bool :=
  match dict_get k d with
  | Some _ => true
  | None => false
  end.

Fixpoint dict_set (k : string) (v : V) (d : list (string * V))
    : list (string * V) :=
  match d with
  | [] => [(k, v)]
  | (k', v') :: d' =>
      if String.eqb k k' then (k, v) :: d' else (k', v') :: dict_set k v d'
  end.

End Dict.

(** One server link ([MCPClients]): whether it has a session, and its tools
    by local name. *)
Record MCPClients := mkClients {
  session : bool;
  tool_map : list (string * Tool)
}.

Record MultiMCPClients := mkMulti {
  clients : list (string * MCPClients);
  flat_tool_map : list (string * Tool);
  tools : list Tool
}.

(** [MultiMCPClients()] *)
Definition empty_federation : MultiMCPClients := mkMulti [] [] [].

(** [_update_tool_map()]. The proxy is the tool object itself, so giving it
    the prefixed name renames the tool held by the link as well. *)
Definition prefixed_name (client_name tool_name : string) : string :=
  client_name +:+ "." +:+ tool_name.

Definition rename_tools (client_name : string) (c : MCPClients)
    : MCPClients :=
  if session c then
    mkClients (session c)
      (map (λ e, (e.1, mkTool (prefixed_name client_name e.1))) (tool_map c))
  else c.

Definition proxies (client_name : string) (c : MCPClients)
    : list (string * Tool) :=
  if session c then
    map (λ e, (prefixed_name client_name e.1,
               mkTool (prefixed_name client_name e.1))) (tool_map c)
  else [].

Definition _update_tool_map (self : MultiMCPClients) : MultiMCPClients :=
  let all := flat_map (λ e, proxies e.1 e.2) (clients self) in
  mkMulti
    (map (λ e, (e.1, rename_tools e.1 e.2)) (clients self))
    (foldl (λ m e, dict_set e.1 e.2 m) [] all)
    (map snd all).

Section AddClient.

(** Modelled from the spec: [MCPClients.connect_sse] and [connect_stdio] are
    not among the sources; connecting a new link either fails or yields the
    connected link (section 6). *)
Variable connect_sse : string → Outcome MCPClients.
Variable connect_stdio :
  string → list string → option (list (string * string)) → Outcome MCPClients.

(** [add_client(name, connection_type, server_url, command, args, env)]:
    what it returns or raises, and the federation afterwards. *)
Definition add_client (self : MultiMCPClients) (name connection_type : string)
    (server_url command : option string) (args : option (list string))
    (env : option (list (string * string)))
    : Outcome MCPClients * MultiMCPClients :=
  let connected :=
    if String.eqb connection_type "sse" then
      if negb (truthy_opt server_url) then
        Raise (ValueError
                 ("Server URL is required for SSE connection: " +:+ name))
      else connect_sse (default "" server_url)
    else if String.eqb connection_type "stdio" then
      if negb (truthy_opt command) then
        Raise (ValueError
                 ("Command is required for stdio connection: " +:+ name))
      else connect_stdio (default "" command) (default [] args) env
    else
      Raise (ValueError
               ("Unsupported connection type: " +:+ connection_type)) in
  match connected with
  | Ret client =>
      let self := mkMulti (dict_set name client (clients self))
                    (flat_tool_map self) (tools self) in
      let self := _update_tool_map self in
      (Ret (default client (dict_get name (clients self))), self)
  | Raise e => (Raise e, self)
  | Cutoff => (Cutoff, self)
  end.

End AddClient.

(** [name.split(".", 1)] for a name that contains a dot: the text before
    the first dot and the text after it. [None] when there is no dot. *)
Fixpoint split_first_dot (name : string) : option (string * string) :=
  match name with
  | EmptyString => None
  | String c rest =>
      if Ascii.eqb c "."%char then Some (EmptyString, rest)
      else match split_first_dot rest with
           | Some (before, after) => Some (String c before, after)
           | None => None
           end
  end.




(** *** Notions used to state the properties *)



(** The [addLink] property in the words of the spec: the call raises and
    leaves the registry as it was. *)
Definition add_fails {A} (r : Outcome A * MultiMCPClients)
    (self : MultiMCPClients) : Prop :=
  (∃ e, r.1 = Raise e) ∧ r.2 = self.

End Federation.

(** ** app/agent/mcp.py: the blocking classifier *)

Module Classifier.

Local Open Scope N_scope.

(** A Python [str] as the sequence of its code points. *)
Abbreviation ustr := (list N).

(** Literals are written in UTF-8 and decoded to code points. *)
Fixpoint utf8_decode (bytes : list N) : ustr :=
  match bytes with
  | [] => []
  | b :: rest =>
      if b <? 128 then b :: utf8_decode rest
      else if b <? 224 then
        match rest with
        | b1 :: rest' => ((b - 192) * 64 + (b1 - 128)) :: utf8_decode rest'
        | _ => [b]
        end
      else if b <? 240 then
        match rest with
        | b1 :: b2 :: rest' =>
            ((b - 224) * 4096 + (b1 - 128) * 64 + (b2 - 128))
              :: utf8_decode rest'
        | _ => [b]
        end
      else
        match rest with
        | b1 :: b2 :: b3 :: rest' =>
            ((b - 240) * 262144 + (b1 - 128) * 4096 + (b2 - 128) * 64
             + (b3 - 128)) :: utf8_decode rest'
        | _ => [b]
        end
  end.

Definition u (s : string) : ustr :=
  utf8_decode (map N_of_ascii (list_ascii_of_string s)).

(** Truth value of a [str] or a [list]. *)
Definition nonempty {A} (s : list A) : bool :=
  match s with
  | [] => false
  | _ => true
  end.

(** [c in s] for a one-character [c]. *)
Definition contains (c : N) (s : ustr) : bool := existsb (N.eqb c) s.

(** [str.isspace] on one character; this is also the class [\s]. *)
Definition is_space (c : N) : bool :=
  ((9 <=? c) && (c <=? 13)) || ((28 <=? c) && (c <=? 32))
  || (c =? 133) || (c =? 160) || (c =? 5760)
  || ((8192 <=? c) && (c <=? 8202))
  || (c =? 8232) || (c =? 8233) || (c =? 8239) || (c =? 8287)
  || (c =? 12288).

(** [s.strip()] *)
Fixpoint lstrip (s : ustr) : ustr :=
  match s with
  | [] => []
  | c :: rest => if is_space c then lstrip rest else s
  end.

Definition strip (s : ustr) : ustr := rev (lstrip (rev (lstrip s))).

(** [sep.join(parts)] *)
Fixpoint ujoin (sep : ustr) (parts : list ustr) : ustr :=
  match parts with
  | [] => []
  | [x] => x
  | x :: rest => x ++ sep ++ ujoin sep rest
  end.

(** The question marks [?] and [？], and the sentence-terminal characters
    [.!?。！？] of the two character sets in the source. *)
Definition is_question_mark (c : N) : bool := (c =? 63) || (c =? 65311).

Definition is_terminal (c : N) : bool :=
  (c =? 46) || (c =? 33) || (c =? 63)
  || (c =? 12290) || (c =? 65281) || (c =? 65311).

(** [re.split(r"(?<=[.!?。！？])\s*", s)]: the pattern matches right after
    each terminal character and takes the whitespace that follows, so a
    piece ends with its terminal character, the whitespace after it is
    dropped, and the text after the last match (empty when the string ends
    there) is the last piece. [cur] is the piece being read; [skipping]
    holds while the whitespace of a match is being taken. *)
Fixpoint split_from (cur : ustr) (skipping : bool) (s : ustr) : list ustr :=
  match s with
  | [] => [cur]
  | c :: rest =>
      if skipping && is_space c then split_from cur true rest
      else if is_terminal c then (cur ++ [c]) :: split_from [] true rest
      else split_from (cur ++ [c]) false rest
  end.

Definition split_sentences (s : ustr) : list ustr := split_from [] false s.

(** [re.findall(r"[^.!?。！？]*[?？][^.!?。！？]*", s)]: a match is a
    longest run of non-terminal characters, a question mark, and a longest
    run of non-terminal characters; matches do not overlap and are taken
    from left to right. [cur] is the run being read, [seen] holds once its
    question mark has been read. *)
Fixpoint findall_from (cur : ustr) (seen : bool) (s : ustr) : list ustr :=
  match s with
  | [] => if seen then [cur] else []
  | c :: rest =>
      if is_question_mark c then
        if seen then cur :: findall_from [c] true rest
        else findall_from (cur ++ [c]) true rest
      else if is_terminal c then
        if seen then cur :: findall_from [] false rest
        else findall_from [] false rest
      else findall_from (cur ++ [c]) seen rest
  end.

Definition find_question_parts (s : ustr) : list ustr :=
  findall_from [] false s.

(** *** Regular expressions *)

Inductive CharClass : Type :=
| Lit (c : N)            (** a literal character, under [re.IGNORECASE] *)
| Dot                    (** [.] *)
| Space                  (** [\s] *)
| Word                   (** [\w] *)
| OneOf (cs : list N)    (** [[...]] *).

Inductive Regex : Type :=
| Fail
| Eps
| Chr (cc : CharClass)
| Seq (r1 r2 : Regex)
| Alt (r1 r2 : Regex)
| Star (r : Regex).

Definition lit (s : string) : Regex :=
  fold_right (λ c r, Seq (Chr (Lit c)) r) Eps (u s).

Definition alts (rs : list Regex) : Regex := fold_right Alt Fail rs.

(** [(?:w1|w2|...)] *)
Definition one_of (ws : list string) : Regex := alts (map lit ws).

Definition seq (rs : list Regex) : Regex := fold_right Seq Eps rs.

(** [r?], [r+], [r{0,n}] *)
Definition opt (r : Regex) : Regex := Alt r Eps.
Definition plus (r : Regex) : Regex := Seq r (Star r).

Fixpoint upto (n : nat) (r : Regex) : Regex :=
  match n with
  | O => Eps
  | S n' => opt (Seq r (upto n' r))
  end.

Definition any_text : Regex := Star (Chr Dot).
Definition spaces : Regex := plus (Chr Space).
Definition a_word : Regex := plus (Chr Word).

(** [(?:\s+\w+)?] *)
Definition opt_word : Regex := opt (Seq spaces a_word).

(** Case folding of [re.IGNORECASE] for a pattern literal [p] against a
    character [c]. The literals of the patterns below are ASCII letters and
    characters without case; for those this is exact: an ASCII letter
    matches its two cases, and besides them [i] matches U+0130 and U+0131,
    [s] matches U+017F, [k] matches U+212A. *)
Definition lower_ascii (c : N) : N :=
  if (65 <=? c) && (c <=? 90) then c + 32 else c.

Definition same_letter (p c : N) : bool :=
  let p := lower_ascii p in
  (lower_ascii c =? p)
  || ((p =? 105) && ((c =? 304) || (c =? 305)))
  || ((p =? 115) && (c =? 383))
  || ((p =? 107) && (c =? 8490)).

Section Matching.

(** The class [\w] outside ASCII: the alphanumeric characters of Unicode,
    a table of the interpreter. *)
Variable unicode_word : N → bool.

Definition is_word (c : N) : bool :=
  if c <? 128 then
    ((48 <=? c) && (c <=? 57)) || ((65 <=? c) && (c <=? 90))
    || (c =? 95) || ((97 <=? c) && (c <=? 122))
  else unicode_word c.

Definition class_has (cc : CharClass) (c : N) : bool :=
  match cc with
  | Lit p => same_letter p c
  | Dot => negb (c =? 10)
  | Space => is_space c
  | Word => is_word c
  | OneOf cs => contains c cs
  end.

(** The strings a pattern matches. *)
Inductive Matches : Regex → ustr → Prop :=
| MEps : Matches Eps []
| MChr cc c : class_has cc c = true → Matches (Chr cc) [c]
| MSeq r1 r2 s1 s2 :
    Matches r1 s1 → Matches r2 s2 → Matches (Seq r1 r2) (s1 ++ s2)
| MAltL r1 r2 s : Matches r1 s → Matches (Alt r1 r2) s
| MAltR r1 r2 s : Matches r2 s → Matches (Alt r1 r2) s
| MStarNil r : Matches (Star r) []
| MStarApp r s1 s2 :
    Matches r s1 → Matches (Star r) s2 → Matches (Star r) (s1 ++ s2).

(** The matcher: derivatives of the pattern by the characters read. *)
Fixpoint nullable (r : Regex) : bool :=
  match r with
  | Fail => false
  | Eps => true
  | Chr _ => false
  | Seq r1 r2 => nullable r1 && nullable r2
  | Alt r1 r2 => nullable r1 || nullable r2
  | Star _ => true
  end.

Definition mk_seq (r1 r2 : Regex) : Regex :=
  match r1, r2 with
  | Fail, _ => Fail
  | _, Fail => Fail
  | Eps, _ => r2
  | _, _ => Seq r1 r2
  end.

Definition mk_alt (r1 r2 : Regex) : Regex :=
  match r1, r2 with
  | Fail, _ => r2
  | _, Fail => r1
  | _, _ => Alt r1 r2
  end.

(** What is left of [r] to match after reading [c]. *)
Fixpoint deriv (c : N) (r : Regex) : Regex :=
  match r with
  | Fail => Fail
  | Eps => Fail
  | Chr cc => if class_has cc c then Eps else Fail
  | Seq r1 r2 =>
      if nullable r1 then mk_alt (mk_seq (deriv c r1) r2) (deriv c r2)
      else mk_seq (deriv c r1) r2
  | Alt r1 r2 => mk_alt (deriv c r1) (deriv c r2)
  | Star r1 => mk_seq (deriv c r1) (Star r1)
  end.

(** Some prefix of [s] matches [r]. *)
Fixpoint match_here (r : Regex) (s : ustr) : bool :=
  nullable r
  || match s with
     | [] => false
     | c :: rest => match_here (deriv c r) rest
     end.

(** [re.search(r, s, re.IGNORECASE)] as a truth value: some stretch of [s]
    matches [r]. *)
Fixpoint search (r : Regex) (s : ustr) : bool :=
  match_here r s
  || match s with
     | [] => false
     | _ :: rest => search r rest
     end.

(** The three pattern lists of [_needs_user_input], in source order. *)
Definition instruction_patterns : list Regex :=
  [ seq [lit "请";
         one_of ["问"; "提供"; "输入"; "告诉"; "说明"; "描述"; "指定";
                 "选择"; "确认"; "回答"; "解释"; "分享"; "上传"]];
    seq [one_of ["提供"; "输入"; "告诉"; "说明"; "描述"; "指定"; "选择";
                 "确认"];
         one_of ["一下"; "下"]];
    seq [one_of ["能"; "可以"; "可否"; "请"];
         one_of ["告诉"; "提供"; "说明"; "描述"; "解释"]];
    seq [lit "有"; one_of ["什么"; "何"; "哪些"];
         opt (upto 10 (Chr Dot));
         one_of ["问题"; "疑问"; "不明白的"]];
    seq [one_of ["please"; "kindly"; "could you"; "can you"; "would you"];
         opt_word; spaces;
         one_of ["provide"; "tell"; "share"; "explain"; "describe";
                 "confirm"; "specify"; "select"; "input"]];
    seq [one_of ["need"; "require"; "want"];
         opt_word; spaces;
         one_of ["your"; "the"; "some"; "more"];
         opt_word; spaces;
         one_of ["input"; "information"; "details"; "clarification";
                 "confirmation"]];
    lit "how can I help" ].

Definition question_patterns : list Regex :=
  [ one_of ["什么"; "如何"; "怎么"; "怎样"; "为什么"; "为何"; "哪些";
            "哪个"; "哪里"; "何时"; "何地"; "谁"; "是否"];
    seq [one_of ["能否"; "可否"; "是否"]; opt_word];
    seq [lit "有"; one_of ["什么"; "哪些"];
         opt (upto 15 (Chr Dot));
         one_of ["可以"; "能够"; "需要"]];
    lit "请问";
    one_of ["what"; "how"; "why"; "when"; "where"; "which"; "who"; "whom";
            "whose"];
    seq [one_of ["do"; "does"; "did"; "is"; "are"; "was"; "were"; "have";
                 "has"; "had"; "can"; "could"; "will"; "would"; "should";
                 "shall"; "may"; "might"];
         spaces;
         one_of ["you"; "i"; "we"; "they"; "he"; "she"; "it"]] ].

Definition rhetorical_patterns : list Regex :=
  [ one_of ["不是吗"; "对吧"; "对不对"; "是不是"; "是吧"; "不是吗";
            "难道不"; "难道"; "不是么"];
    one_of ["wouldn't you agree"; "isn't it"; "doesn't it";
            "don't you think"; "right?"];
    seq [one_of ["想象一下"; "假设"; "假如"; "如果"]; any_text;
         Chr (OneOf [63; 65311])];
    seq [one_of ["imagine"; "suppose"; "what if"; "assuming"]; any_text;
         Chr (OneOf [63; 65311])] ].

(** [any(re.search(pattern, s, re.IGNORECASE) for pattern in patterns)] *)
Definition any_search (patterns : list Regex) (s : ustr) : bool :=
  existsb (λ pattern, search pattern s) patterns.

(** The body of the loop over the sentences: whether a sentence is added
    to [user_input_sentences]. *)
Definition asks_user (sentence : ustr) : bool :=
  if (length sentence <? 3)%nat then false
  else
    let is_question := contains 63 sentence || contains 65311 sentence in
    let has_instruction := any_search instruction_patterns sentence in
    let has_question_pattern := any_search question_patterns sentence in
    let is_rhetorical := any_search rhetorical_patterns sentence in
    has_instruction
    || (is_question && negb is_rhetorical)
    || (has_question_pattern && negb is_rhetorical).

(** The fallback for a message with a question mark and no flagged
    sentence. *)
Definition question_fallback (message : ustr) : list ustr :=
  map strip
    (filter (λ part,
               (3 <? length (strip part))%nat
               && negb (any_search rhetorical_patterns part) = true)
       (find_question_parts message)).

(** [_needs_user_input(message)] *)
Definition _needs_user_input (message : ustr) : bool * ustr :=
  if negb (nonempty message) || negb (nonempty (strip message)) then
    (false, [])
  else
    let has_question_mark := contains 63 message || contains 65311 message in
    let sentences := split_sentences (strip message) in
    let sentences :=
      map strip (filter (λ s, nonempty (strip s) = true) sentences) in
    if negb (nonempty sentences) then (false, [])
    else
      let user_input_sentences :=
        filter (λ s, asks_user s = true) sentences in
      let user_input_sentences :=
        if has_question_mark
           && negb (nonempty user_input_sentences)
        then user_input_sentences ++ question_fallback message
        else user_input_sentences in
      match user_input_sentences with
      | [] => (false, [])
      | _ =>
          let block_reason := ujoin (u " ") user_input_sentences in
          (false, block_reason)
      end.

End Matching.

End Classifier.

(** ** Concrete agents and steps used to exercise the model *)

Module Scenarios.

Import Agent.
Local Open Scope Z_scope.

(** A step that returns and touches nothing. *)
Definition steady_step (a : BaseAgent) : Outcome string * BaseAgent :=
  (Ret "ok", a).

(** A step that calls [self.block("need input")]. *)
Definition asking_step (a : BaseAgent) : Outcome string * BaseAgent :=
  (Ret "ask", block "need input" true a).

(** A step that raises. *)
Definition failing_step (a : BaseAgent) : Outcome string * BaseAgent :=
  (Raise (mkExn "KeyError" "k"), a).

(** A step that returns on its first call and raises on its second. *)
Definition flaky_step (a : BaseAgent) : Outcome string * BaseAgent :=
  if bool_decide (current_step a = 2)
  then (Raise (mkExn "TimeoutError" "t"), a)
  else (Ret "ok", a).

(** A newly built agent with a budget of three steps, connected. *)
Definition fresh_world : World :=
  mkWorld (mkAgent "ScholarManus" None [] IDLE 3 0 None false 2) [] true.

(** An idle agent whose step counter stands at 2 of 3, as it does after a
    run whose second step blocked or raised. *)
Definition midway_world : World :=
  mkWorld (mkAgent "ScholarManus" None [] IDLE 3 2 None false 2) [] true.

(** A blocked agent, as [block] leaves it. *)
Definition blocked_world : World :=
  mkWorld (block "need input" true
             (mkAgent "ScholarManus" None [] RUNNING 3 1 None false 2))
    [] true.

(** An agent whose log holds the given assistant outputs, in order. *)
Definition with_outputs (threshold : Z) (outputs : list string) : BaseAgent :=
  mkAgent "ScholarManus" None
    ((λ c, assistant_message c None) <$> outputs)
    RUNNING 10 1 None false threshold.

(** The reconciler example of the spec: the cache holds a: s1 and b: s2, the
    server lists a: s1 and c: s3. *)
Definition cached_agent : MCP.MCPAgent string :=
  MCP.mkMCPAgent (new_agent "ScholarManus")
    (<["a" := "s1"]> (<["b" := "s2"]> ∅)) [].

Definition live_tools : list (string * string) := [("a", "s1"); ("c", "s3")].

(** Servers for the federation examples: a link reached over stdio exposes
    one tool, named after the command's first argument ([search] when there
    is none); no server answers over SSE. *)
Definition stdio_server (command : string) (args : list string)
    (env : option (list (string * string))) : Outcome Federation.MCPClients :=
  let tool := default "search" (head args) in
  Ret (Federation.mkClients true [(tool, Federation.mkTool tool)]).

Definition sse_server (url : string) : Outcome Federation.MCPClients :=
  Raise (mkExn "ConnectionError" url).

Definition add_stdio (self : Federation.MultiMCPClients) (name : string)
    (args : option (list string)) : Federation.MultiMCPClients :=
  (Federation.add_client sse_server stdio_server self name "stdio" None
     (Some "python") args None).2.

(** Links [web] and [docs], registered in that order, both exposing a tool
    [search]. *)
Definition web_docs : Federation.MultiMCPClients :=
  add_stdio (add_stdio Federation.empty_federation "web" None) "docs" None.

End Scenarios.

(** * Properties *)

(** ** Strings *)

Module PyFacts.

Lemma has_nl_app s t : has_nl (s +:+ t) = has_nl s || has_nl t.
Proof.
  induction s as [|c s IH]; simpl; [reflexivity|].
  change (String c s +:+ t) with (String c (s +:+ t)).
  simpl. rewrite IH. apply orb_assoc.
Qed.

Lemma last_line_from_no_nl s cur :
  has_nl s = false → last_line_from cur s = cur.
Proof.
  revert cur. induction s as [|c s IH]; intros cur H; simpl in *.
  - reflexivity.
  - apply orb_false_iff in H as [Hc Hs]. rewrite Hc. auto.
Qed.

Lemma last_line_from_skip a rest cur :
  last_line_from cur (a +:+ nl +:+ rest) = last_line rest.
Proof.
  revert cur. induction a as [|c a IH]; intros cur.
  - reflexivity.
  - change (String c a +:+ nl +:+ rest) with (String c (a +:+ nl +:+ rest)).
    simpl. destruct (Ascii.eqb c _); apply IH.
Qed.

(** The last line of a newline-joined list is its last element, when that
    element is a single line. *)
Lemma last_line_join parts x :
  has_nl x = false → last_line (join nl (parts ++ [x])) = x.
Proof.
  intros Hx. induction parts as [|y parts IH].
  - simpl. apply last_line_from_no_nl, Hx.
  - change (join nl ((y :: parts) ++ [x]))
      with (String.concat nl (y :: (parts ++ [x]))).
    destruct (parts ++ [x]) as [|z l] eqn:E.
    + destruct parts; discriminate.
    + change (String.concat nl (y :: z :: l))
        with (y +:+ nl +:+ String.concat nl (z :: l)).
      unfold last_line at 1. rewrite last_line_from_skip. exact IH.
Qed.

Lemma has_nl_uint d : has_nl (NilEmpty.string_of_uint d) = false.
Proof. induction d; simpl; auto. Qed.

Lemma has_nl_str_of_int n : has_nl (str_of_int n) = false.
Proof.
  unfold str_of_int.
  destruct (Z.to_int n) as [d|d]; destruct d; simpl; auto using has_nl_uint.
Qed.

End PyFacts.

(** ** The step loop *)

Module AgentFacts.

Import Agent PyFacts.
Local Open Scope Z_scope.

Lemma count_steps_app tr1 tr2 :
  count_steps (tr1 ++ tr2) = (count_steps tr1 + count_steps tr2)%nat.
Proof.
  induction tr1 as [|ev tr1 IH]; simpl; [reflexivity|].
  destruct ev; simpl; rewrite IH; reflexivity.
Qed.

Lemma count_sandbox_cleanups_app tr1 tr2 :
  count_sandbox_cleanups (tr1 ++ tr2)
  = (count_sandbox_cleanups tr1 + count_sandbox_cleanups tr2)%nat.
Proof.
  induction tr1 as [|ev tr1 IH]; simpl; [reflexivity|].
  destruct ev; simpl; rewrite IH; reflexivity.
Qed.

Lemma last_step_app tr1 tr2 :
  last_step (tr1 ++ tr2)
  = match last_step tr2 with
    | Some b => Some b
    | None => last_step tr1
    end.
Proof.
  induction tr1 as [|ev tr1 IH]; simpl.
  - destruct (last_step tr2); reflexivity.
  - rewrite IH. destruct (last_step tr2); reflexivity.
Qed.

Lemma last_assign_app tr1 tr2 :
  last_assign (tr1 ++ tr2)
  = match last_assign tr2 with
    | Some s => Some s
    | None => last_assign tr1
    end.
Proof.
  induction tr1 as [|ev tr1 IH]; simpl.
  - destruct (last_assign tr2); reflexivity.
  - rewrite IH. destruct (last_assign tr2); reflexivity.
Qed.

Ltac run_unfold :=
  unfold mbind, M_bind, mret, M_ret, get, modify, emit, raise, cutoff,
    on_agent, assign_state, call_step,
    try_reraise_finally in *.

Section Loop.

Variable step : BaseAgent → Outcome string * BaseAgent.

Lemma run_loop_exit fuel results w :
  loop_test (agent w) = false →
  run_loop step fuel results w = (Ret results, w).
Proof.
  unfold loop_test. intros H.
  destruct fuel; simpl; run_unfold; simpl; rewrite H; reflexivity.
Qed.

Lemma run_loop_cutoff results w :
  loop_test (agent w) = true →
  run_loop step 0 results w = (Cutoff, w).
Proof.
  unfold loop_test. intros H. simpl; run_unfold; simpl; rewrite H; reflexivity.
Qed.

(** One iteration of the loop body, from an agent that passes the test. *)
Lemma run_loop_iter fuel results w :
  loop_test (agent w) = true →
  run_loop step (S fuel) results w =
    let a1 := set_current_step (current_step (agent w) + 1) (agent w) in
    match step a1 with
    | (Ret step_result, a2) =>
        let w2 := mkWorld a2 (events w ++ [EvStep a2]) (mcp_session w) in
        if bool_decide (state a2 = BLOCKED) then
          (Ret ((if user_input_required a2
                 then λ l, l ++ ["Waiting for user input to continue"%string]
                 else λ l, l)
                  ((results ++ [step_record a2 step_result])
                     ++ [("Blocked: " +:+ str_of_opt (block_reason a2))%string])),
           w2)
        else
          let a3 := if is_stuck a2 then handle_stuck_state a2 else a2 in
          run_loop step fuel (results ++ [step_record a3 step_result])
            (mkWorld a3 (events w ++ [EvStep a2]) (mcp_session w))
    | (Raise e, a2) =>
        (Raise e,
         mkWorld a2 (events w ++ [EvStepRaised e a2]) (mcp_session w))
    | (Cutoff, a2) =>
        (Cutoff, mkWorld a2 (events w ++ [EvStep a2]) (mcp_session w))
    end.
Proof.
  unfold loop_test. intros H.
  cbn [run_loop]. run_unfold. cbn [agent events mcp_session id].
  rewrite H. cbn [agent events mcp_session].
  destruct (step _) as [[r| e |] a2]; cbn [agent events mcp_session];
    try reflexivity.
  destruct (bool_decide (state a2 = BLOCKED)).
  - destruct (user_input_required a2); reflexivity.
  - destruct (is_stuck a2); reflexivity.
Qed.

Lemma termination_record_one_line n : has_nl (termination_record n) = false.
Proof.
  unfold termination_record. rewrite !has_nl_app, has_nl_str_of_int.
  reflexivity.
Qed.

Lemma after_loop_eq results w :
  after_loop results w =
    if bool_decide (current_step (agent w) >= max_steps (agent w))
       && bool_decide (state (agent w) ≠ BLOCKED)
    then (Ret (results ++ [termination_record (max_steps (agent w))]),
          mkWorld (set_state IDLE (set_current_step 0 (agent w)))
            (events w ++ [EvAssignState IDLE]) (mcp_session w))
    else (Ret results, w).
Proof.
  unfold after_loop. run_unfold. cbn [agent events mcp_session id].
  destruct (_ && _); reflexivity.
Qed.

Lemma bind_eq {A B} (m : M A) (f : A → M B) w :
  (m ≫= f) w =
    match m w with
    | (Ret x, w') => f x w'
    | (Raise e, w') => (Raise e, w')
    | (Cutoff, w') => (Cutoff, w')
    end.
Proof. reflexivity. Qed.

Lemma assign_state_eq s w : assign_state s w = (Ret (), assigned s w).
Proof. reflexivity. Qed.

Lemma assigned_twice s1 s2 w :
  assigned s2 (assigned s1 w)
  = mkWorld (set_state s2 (agent w))
      (events w ++ [EvAssignState s1; EvAssignState s2]) (mcp_session w).
Proof. unfold assigned. cbn. rewrite <- app_assoc. reflexivity. Qed.

Lemma state_context_eq {A} s (body : M A) w :
  state_context s body w =
    match body (assigned s w) with
    | (Ret x, w') => (Ret x, assigned (state (agent w)) w')
    | (Raise e, w') =>
        (Raise e, assigned (state (agent w)) (assigned ERROR w'))
    | (Cutoff, w') => (Cutoff, w')
    end.
Proof.
  unfold state_context, try_reraise_finally.
  rewrite bind_eq. cbn [get]. rewrite bind_eq, assign_state_eq.
  destruct (body _) as [[x|e|] w']; try reflexivity.
Qed.

Lemma check_runnable_ok w :
  state (agent w) = IDLE ∨ state (agent w) = BLOCKED →
  check_runnable w = (Ret (), w).
Proof.
  intros [H|H]; unfold check_runnable; rewrite bind_eq; cbn [get]; rewrite H;
    reflexivity.
Qed.

Lemma check_runnable_raise w :
  state (agent w) ≠ IDLE → state (agent w) ≠ BLOCKED →
  check_runnable w =
    (Raise (RuntimeError ("Cannot run agent from state: "
                          +:+ state_name (state (agent w)))), w).
Proof.
  intros H1 H2. unfold check_runnable. rewrite bind_eq. cbn [get].
  rewrite !bool_decide_eq_true_2 by assumption. reflexivity.
Qed.

(** Recording the request touches the message log only. *)
Lemma record_request_eq request w :
  ∃ a', record_request request w
        = (Ret (), mkWorld a' (events w) (mcp_session w))
    ∧ state a' = state (agent w)
    ∧ max_steps a' = max_steps (agent w)
    ∧ current_step a' = current_step (agent w)
    ∧ block_reason a' = block_reason (agent w)
    ∧ user_input_required a' = user_input_required (agent w).
Proof.
  unfold record_request. rewrite bind_eq. cbn [get].
  destruct (_ && _).
  - eexists. split; [reflexivity|]. repeat split.
  - exists (agent w). destruct w. repeat split.
Qed.

Lemma resume_if_blocked_eq results w :
  resume_if_blocked results w =
    if bool_decide (state (agent w) = BLOCKED)
    then (Ret (results ++ [("Resuming from blocked state: "
                            +:+ str_of_opt (block_reason (agent w)))%string]),
          assigned RUNNING w)
    else (Ret results, w).
Proof.
  unfold resume_if_blocked. rewrite bind_eq. cbn [get id].
  destruct (bool_decide _); reflexivity.
Qed.

Lemma cleanup_unless_blocked_eq w :
  cleanup_unless_blocked w =
    if bool_decide (state (agent w) ≠ BLOCKED)
    then (Ret (), mkWorld (agent w) (events w ++ [EvSandboxCleanup])
                    (mcp_session w))
    else (Ret (), w).
Proof.
  unfold cleanup_unless_blocked. rewrite bind_eq. cbn [get].
  destruct (bool_decide _); reflexivity.
Qed.

(** The statements of [run] around the loop: from [IDLE] or [BLOCKED] the
    loop is entered in state [RUNNING]; whatever the loop does, the prior
    state is assigned last, after [ERROR] when the body raised; a normal exit
    is followed by the sandbox cleanup, since the prior state is never
    [BLOCKED]. *)
Lemma run_eq fuel request w :
  state (agent w) = IDLE ∨ state (agent w) = BLOCKED →
  ∃ w1 results1 pre,
    state (agent w1) = RUNNING ∧
    max_steps (agent w1) = max_steps (agent w) ∧
    current_step (agent w1) = current_step (agent w) ∧
    block_reason (agent w1) = block_reason (agent w) ∧
    user_input_required (agent w1) = user_input_required (agent w) ∧
    mcp_session w1 = mcp_session w ∧
    events w1 = events w ++ pre ∧
    count_steps pre = 0%nat ∧ last_step pre = None ∧
    count_sandbox_cleanups pre = 0%nat ∧
    run step fuel request w =
      match run_loop step fuel results1 w1 with
      | (Ret res, wl) =>
          match after_loop res wl with
          | (Ret res', wl') =>
              (Ret (summary res'),
               mkWorld (set_state (prior_state (state (agent w))) (agent wl'))
                 (events wl'
                  ++ [EvAssignState (prior_state (state (agent w)));
                      EvSandboxCleanup])
                 (mcp_session wl'))
          | (Raise e, wl') => (Raise e, wl')
          | (Cutoff, wl') => (Cutoff, wl')
          end
      | (Raise e, wl) =>
          (Raise e,
           mkWorld (set_state (prior_state (state (agent w))) (agent wl))
             (events wl
              ++ [EvAssignState ERROR;
                  EvAssignState (prior_state (state (agent w)))])
             (mcp_session wl))
      | (Cutoff, wl) => (Cutoff, wl)
      end.
Proof.
  intros Hs. unfold run.
  rewrite bind_eq, (check_runnable_ok w Hs).
  destruct (record_request_eq request w) as (a' & Hrec & E1 & E2 & E3 & E4 & E5).
  rewrite bind_eq, Hrec, bind_eq, resume_if_blocked_eq.
  cbn [agent events mcp_session]. rewrite E1, E4.
  set (P := prior_state (state (agent w))).
  assert (Hctx : ∀ w0 : World,
    (state (agent w0) = P) →
    ∀ results0,
    (state_context RUNNING
       (results ← run_loop step fuel results0; after_loop results)
     ≫= λ results, _ ← cleanup_unless_blocked; mret (summary results)) w0
    = match run_loop step fuel results0 (assigned RUNNING w0) with
      | (Ret res, wl) =>
          match after_loop res wl with
          | (Ret res', wl') =>
              (Ret (summary res'),
               mkWorld (set_state P (agent wl'))
                 (events wl' ++ [EvAssignState P; EvSandboxCleanup])
                 (mcp_session wl'))
          | (Raise e, wl') => (Raise e, wl')
          | (Cutoff, wl') => (Cutoff, wl')
          end
      | (Raise e, wl) =>
          (Raise e,
           mkWorld (set_state P (agent wl))
             (events wl ++ [EvAssignState ERROR; EvAssignState P])
             (mcp_session wl))
      | (Cutoff, wl) => (Cutoff, wl)
      end).
  { intros w0 Hw0 results0. rewrite bind_eq, state_context_eq, bind_eq.
    rewrite Hw0.
    assert (HP : P ≠ BLOCKED).
    { subst P. unfold prior_state. destruct (bool_decide _); discriminate. }
    destruct (run_loop step fuel results0 _) as [[res|e|] wl]; try reflexivity.
    - rewrite after_loop_eq. destruct (_ && _).
      all: rewrite bind_eq, cleanup_unless_blocked_eq.
      all: unfold assigned at 1; cbn [agent events mcp_session set_state state].
      all: rewrite bool_decide_eq_true_2 by exact HP.
      all: unfold assigned; cbn [agent events mcp_session set_state state].
      all: rewrite <- !app_assoc; reflexivity.
    - rewrite assigned_twice. reflexivity. }
  destruct Hs as [Hs|Hs].
  - rewrite Hs. change (bool_decide (IDLE = BLOCKED)) with false.
    cbv iota. rewrite Hctx.
    2:{ cbn [agent]. subst P. rewrite E1, Hs. reflexivity. }
    exists (assigned RUNNING (mkWorld a' (events w) (mcp_session w))), [],
      [EvAssignState RUNNING].
    cbn [assigned agent events mcp_session set_state state max_steps
         current_step block_reason user_input_required].
    repeat split; try assumption.
  - rewrite Hs. change (bool_decide (BLOCKED = BLOCKED)) with true.
    cbv iota. rewrite Hctx.
    2:{ subst P. rewrite Hs. reflexivity. }
    eexists (assigned RUNNING (assigned RUNNING
               (mkWorld a' (events w) (mcp_session w)))), _,
      [EvAssignState RUNNING; EvAssignState RUNNING].
    cbn [assigned agent events mcp_session set_state state max_steps
         current_step block_reason user_input_required].
    repeat split; try assumption.
    rewrite <- app_assoc. reflexivity.
Qed.

(** Every way out of the loop only adds step events. *)
Lemma run_loop_events fuel : ∀ results w o w',
  run_loop step fuel results w = (o, w') →
  ∃ tr, events w' = events w ++ tr
        ∧ last_assign tr = None
        ∧ count_sandbox_cleanups tr = 0%nat
        ∧ mcp_session w' = mcp_session w.
Proof.
  induction fuel as [|fuel IH]; intros results w o w' H.
  - destruct (loop_test (agent w)) eqn:T.
    + rewrite run_loop_cutoff in H by exact T. inversion H; subst.
      exists []. rewrite app_nil_r. auto.
    + rewrite run_loop_exit in H by exact T. inversion H; subst.
      exists []. rewrite app_nil_r. auto.
  - destruct (loop_test (agent w)) eqn:T.
    2:{ rewrite run_loop_exit in H by exact T. inversion H; subst.
        exists []. rewrite app_nil_r. auto. }
    rewrite run_loop_iter in H by exact T. cbv zeta in H.
    destruct (step _) as [[r|e|] a2].
    + destruct (bool_decide (state a2 = BLOCKED)).
      * inversion H; subst. exists [EvStep a2]. auto.
      * apply IH in H as (tr & E & L & C & S0).
        cbn [events mcp_session] in *.
        exists (EvStep a2 :: tr). rewrite E, <- app_assoc.
        cbn [last_assign count_sandbox_cleanups]. rewrite L. auto.
    + inversion H; subst. exists [EvStepRaised e a2]. auto.
    + inversion H; subst. exists [EvStep a2]. auto.
Qed.

(** When the loop returns, the agent is as the last step left it if that
    step blocked. *)
Lemma run_loop_blocked fuel : ∀ results w res w',
  run_loop step fuel results w = (Ret res, w') →
  ∃ tr, events w' = events w ++ tr
        ∧ (∀ b, last_step tr = Some b → state b = BLOCKED → agent w' = b).
Proof.
  induction fuel as [|fuel IH]; intros results w res w' H.
  - destruct (loop_test (agent w)) eqn:T.
    + rewrite run_loop_cutoff in H by exact T. discriminate.
    + rewrite run_loop_exit in H by exact T. inversion H; subst.
      exists []. rewrite app_nil_r. split; [reflexivity|]. discriminate.
  - destruct (loop_test (agent w)) eqn:T.
    2:{ rewrite run_loop_exit in H by exact T. inversion H; subst.
        exists []. rewrite app_nil_r. split; [reflexivity|]. discriminate. }
    rewrite run_loop_iter in H by exact T. cbv zeta in H.
    destruct (step _) as [[r|e|] a2]; try discriminate.
    destruct (bool_decide (state a2 = BLOCKED)) eqn:B.
    + inversion H; subst. exists [EvStep a2]. split; [reflexivity|].
      cbn. intros b Hb _. congruence.
    + apply IH in H as (tr & E & L). cbn [events] in E.
      exists (EvStep a2 :: tr). rewrite E, <- app_assoc.
      split; [reflexivity|]. intros b Hb Hblk. cbn [last_step] in Hb.
      destruct (last_step tr) as [b'|] eqn:Ltr.
      * apply L; congruence.
      * inversion Hb; subst. apply bool_decide_eq_false in B. contradiction.
Qed.

(** When the loop raises, a step call raised that exception, and it is the
    last thing the loop did. *)
Lemma run_loop_raise fuel : ∀ results w e w',
  run_loop step fuel results w = (Raise e, w') →
  ∃ tr b0, events w' = events w ++ tr ++ [EvStepRaised e (agent w')]
           ∧ step b0 = (Raise e, agent w').
Proof.
  induction fuel as [|fuel IH]; intros results w e w' H.
  - destruct (loop_test (agent w)) eqn:T.
    + rewrite run_loop_cutoff in H by exact T. discriminate.
    + rewrite run_loop_exit in H by exact T. discriminate.
  - destruct (loop_test (agent w)) eqn:T.
    2:{ rewrite run_loop_exit in H by exact T. discriminate. }
    rewrite run_loop_iter in H by exact T. cbv zeta in H.
    destruct (step _) as [[r|e'|] a2] eqn:St; try discriminate.
    + destruct (bool_decide (state a2 = BLOCKED)); [discriminate|].
      apply IH in H as (tr & b0 & E & Hb). cbn [events] in E.
      exists (EvStep a2 :: tr), b0. rewrite E, <- !app_assoc. auto.
    + inversion H; subst. cbn [agent events].
      exists [], (set_current_step (current_step (agent w) + 1) (agent w)).
      auto.
Qed.

(** In the other direction: when [n] iterations run to their end and the
    step call of the next one raises, the loop raises that exception with
    the agent as the step call left it, whatever fuel is left over. *)
Lemma run_loop_raises : ∀ n a e b,
  raises_after step n a e b →
  ∀ fuel results w,
    agent w = a → (n < fuel)%nat →
    ∃ tr,
      run_loop step fuel results w
      = (Raise e,
         mkWorld b (events w ++ tr ++ [EvStepRaised e b]) (mcp_session w))
      ∧ count_steps tr = n
      ∧ count_sandbox_cleanups tr = 0%nat
      ∧ last_assign tr = None.
Proof.
  intros n a e b H.
  induction H as [a e b T St | n a r a2 e b T St NB H IH];
    intros fuel results w Ea Hf; subst a.
  - destruct fuel as [|fuel]; [lia|].
    rewrite run_loop_iter by exact T. cbv zeta. rewrite St.
    exists []. auto.
  - destruct fuel as [|fuel]; [lia|].
    rewrite run_loop_iter by exact T. cbv zeta. rewrite St.
    rewrite bool_decide_eq_false_2 by exact NB.
    set (a3 := if is_stuck a2 then handle_stuck_state a2 else a2) in *.
    destruct (IH fuel (results ++ [step_record a3 r])
                (mkWorld a3 (events w ++ [EvStep a2]) (mcp_session w))
                eq_refl ltac:(lia))
      as (tr & E & C & S0 & L).
    rewrite E.
    exists (EvStep a2 :: tr). cbn [events mcp_session].
    rewrite <- !app_assoc.
    cbn [app count_steps count_sandbox_cleanups last_assign].
    rewrite C, S0, L. auto.
Qed.

(** What the request does to the agent before the loop. *)
Lemma record_request_entry request w :
  record_request request w
  = (Ret (),
     mkWorld (if bool_decide (state (agent w) = IDLE) && truthy_opt request
              then (update_memory "user" (default "" request) None None
                      (agent w)).2
              else agent w)
       (events w) (mcp_session w)).
Proof.
  unfold record_request. rewrite bind_eq. cbn [get].
  destruct (_ && _); [reflexivity | destruct w; reflexivity].
Qed.

(** An exception leaving the body of the context leaves [run]: the
    [except] clause assigns [ERROR], the [finally] clause the prior state,
    and none of the statements after the context is reached. *)
Lemma run_raises_with_loop fuel request w :
  state (agent w) = IDLE ∨ state (agent w) = BLOCKED →
  ∃ results1 pre,
    count_steps pre = 0%nat ∧ count_sandbox_cleanups pre = 0%nat ∧
    ∀ e wl,
      run_loop step fuel results1
        (mkWorld (loop_entry request (agent w)) (events w ++ pre)
           (mcp_session w))
      = (Raise e, wl) →
      run step fuel request w
      = (Raise e,
         mkWorld (set_state (prior_state (state (agent w))) (agent wl))
           (events wl
            ++ [EvAssignState ERROR;
                EvAssignState (prior_state (state (agent w)))])
           (mcp_session wl)).
Proof.
  intros Hs. unfold run.
  rewrite bind_eq, (check_runnable_ok w Hs).
  rewrite bind_eq, record_request_entry, bind_eq, resume_if_blocked_eq.
  cbn [agent events mcp_session]. unfold loop_entry.
  destruct Hs as [Hs|Hs]; rewrite Hs.
  - set (a0 := if bool_decide (IDLE = IDLE) && truthy_opt request
               then _ else _).
    assert (S0 : state a0 = IDLE).
    { subst a0. destruct (_ && _); exact Hs. }
    rewrite S0. change (bool_decide (IDLE = BLOCKED)) with false. cbv iota.
    exists [], [EvAssignState RUNNING]. split; [reflexivity|].
    split; [reflexivity|]. intros e wl Hloop.
    rewrite bind_eq, state_context_eq, bind_eq.
    unfold assigned at 1. cbn [agent events mcp_session].
    rewrite Hloop, assigned_twice. cbn [agent state]. rewrite S0.
    reflexivity.
  - change (bool_decide (BLOCKED = IDLE)) with false.
    cbn [andb]. cbv iota. rewrite Hs.
    change (bool_decide (BLOCKED = BLOCKED)) with true. cbv iota.
    exists ["Resuming from blocked state: "
            +:+ str_of_opt (block_reason (agent w))]%string,
      [EvAssignState RUNNING; EvAssignState RUNNING].
    split; [reflexivity|]. split; [reflexivity|]. intros e wl Hloop.
    rewrite bind_eq, state_context_eq, bind_eq.
    unfold assigned at 1 2. cbn [agent events mcp_session app].
    rewrite <- app_assoc. cbn [app].
    change (set_state RUNNING (set_state RUNNING (agent w)))
      with (set_state RUNNING (agent w)).
    rewrite Hloop, assigned_twice. reflexivity.
Qed.

Section Budget.

Hypothesis step_keeps_running : keeps_running step.
Hypothesis step_keeps_counters : keeps_counters step.

(** With steps that neither block nor finish nor raise, the loop runs until
    the counter reaches the budget. *)
Lemma run_loop_budget : ∀ n fuel results w,
  Z.to_nat (max_steps (agent w) - current_step (agent w)) = n →
  (n ≤ fuel)%nat →
  state (agent w) ≠ FINISHED → state (agent w) ≠ BLOCKED →
  ∃ res w' tr,
    run_loop step fuel results w = (Ret res, w')
    ∧ events w' = events w ++ tr
    ∧ count_steps tr = n
    ∧ max_steps (agent w') = max_steps (agent w)
    ∧ current_step (agent w') >= max_steps (agent w')
    ∧ state (agent w') ≠ BLOCKED.
Proof.
  induction n as [|n IH]; intros fuel results w Hn Hfuel HF HB.
  - exists results, w, []. rewrite app_nil_r.
    rewrite run_loop_exit.
    + repeat split; auto. lia.
    + unfold loop_test. rewrite (bool_decide_eq_false_2 (_ < _)) by lia.
      reflexivity.
  - destruct fuel as [|fuel]; [lia|].
    assert (T : loop_test (agent w) = true).
    { unfold loop_test. rewrite !bool_decide_eq_true_2 by (auto; lia).
      reflexivity. }
    rewrite run_loop_iter by exact T. cbv zeta.
    set (a1 := set_current_step (current_step (agent w) + 1) (agent w)).
    destruct (step_keeps_running a1) as ((r & Hr) & HnB & HnF).
    specialize (HnB HB). specialize (HnF HF).
    destruct (step_keeps_counters a1) as (Hc & Hm).
    destruct (step a1) as [o a2]. cbn [fst snd] in *. subst o.
    rewrite bool_decide_eq_false_2 by exact HnB.
    set (a3 := if is_stuck a2 then handle_stuck_state a2 else a2).
    assert (E3 : state a3 = state a2 ∧ max_steps a3 = max_steps a2
                  ∧ current_step a3 = current_step a2).
    { subst a3. destruct (is_stuck a2); auto. }
    destruct E3 as (E3s & E3m & E3c).
    destruct (IH fuel (results ++ [step_record a3 r])
                (mkWorld a3 (events w ++ [EvStep a2]) (mcp_session w)))
      as (res & w' & tr & Hrun & Hev & Hcnt & Hmax & Hcur & Hst).
    + cbn [agent]. rewrite E3m, E3c, Hc, Hm. subst a1. cbn. lia.
    + lia.
    + cbn [agent]. rewrite E3s. exact HnF.
    + cbn [agent]. rewrite E3s. exact HnB.
    + exists res, w', (EvStep a2 :: tr). cbn [agent events] in *.
      rewrite Hrun, Hev, <- app_assoc. repeat split; auto.
      * cbn. rewrite Hcnt. reflexivity.
      * rewrite Hmax, E3m, Hm. reflexivity.
Qed.

(** A run from [IDLE] with such steps, given fuel for the remaining budget. *)
Lemma run_budget fuel request w :
  state (agent w) = IDLE →
  (Z.to_nat (max_steps (agent w) - current_step (agent w)) ≤ fuel)%nat →
  ∃ text w' tr,
    run step fuel request w = (Ret text, w')
    ∧ events w' = events w ++ tr
    ∧ count_steps tr
      = Z.to_nat (max_steps (agent w) - current_step (agent w))
    ∧ state (agent w') = IDLE
    ∧ current_step (agent w') = 0
    ∧ last_line text = termination_record (max_steps (agent w)).
Proof.
  intros Hs Hfuel.
  destruct (run_eq fuel request w (or_introl Hs))
    as (w1 & results1 & pre & S1 & M1 & C1 & _ & _ & _ & Ev1 & Cp & _ & _ & Hrun).
  destruct (run_loop_budget _ fuel results1 w1 eq_refl)
    as (res & wl & tr & Hloop & Hev & Hcnt & Hmax & Hcur & Hst).
  { rewrite M1, C1. exact Hfuel. }
  { rewrite S1. discriminate. }
  { rewrite S1. discriminate. }
  rewrite Hloop, after_loop_eq in Hrun.
  rewrite !bool_decide_eq_true_2 in Hrun by assumption. cbn [andb] in Hrun.
  eexists _, _, (pre ++ tr ++ [EvAssignState IDLE;
                                EvAssignState (prior_state (state (agent w)));
                                EvSandboxCleanup]).
  split; [exact Hrun|]. cbn [agent events].
  rewrite Hev, Ev1, <- !app_assoc. cbn [app].
  repeat split.
  - rewrite !count_steps_app, Cp, Hcnt, M1, C1. cbn. lia.
  - rewrite Hs. reflexivity.
  - unfold summary.
    destruct (res ++ [termination_record (max_steps (agent wl))]) eqn:E.
    { destruct res; discriminate. }
    rewrite <- E, last_line_join by apply termination_record_one_line.
    rewrite Hmax, M1. reflexivity.
Qed.

End Budget.

(** With no fuel, a run whose first loop test passes is cut off. *)
Lemma run_cutoff request w :
  state (agent w) = IDLE →
  current_step (agent w) < max_steps (agent w) →
  (run step 0 request w).1 = Cutoff.
Proof.
  intros Hs Hlt.
  destruct (run_eq 0 request w (or_introl Hs))
    as (w1 & results1 & pre & S1 & M1 & C1 & _ & _ & _ & _ & _ & _ & _ & Hrun).
  rewrite run_loop_cutoff in Hrun.
  - rewrite Hrun. reflexivity.
  - unfold loop_test. rewrite S1, M1, C1.
    rewrite bool_decide_eq_true_2 by exact Hlt. reflexivity.
Qed.

End Loop.

(** *** The stuck detector *)

Lemma filter_length_iff {A} (P Q : A → Prop)
    `{!∀ x, Decision (P x)} `{!∀ x, Decision (Q x)} (l : list A) :
  (∀ x, P x ↔ Q x) → length (filter P l) = length (filter Q l).
Proof.
  intros HPQ. induction l as [|x l IH]; [reflexivity|].
  rewrite !filter_cons.
  destruct (decide (P x)) as [p|np], (decide (Q x)) as [q|nq]; cbn;
    try (rewrite IH; reflexivity).
  - apply HPQ in p. contradiction.
  - apply HPQ in q. contradiction.
Qed.

(** The count the code takes over the reversed prefix is the number of
    earlier assistant messages with the content of the last one. *)
Lemma duplicate_count_eq a m :
  length (filter (λ msg, is_duplicate m msg = true)
            (reverse (removelast (messages a))))
  = prior_matches a m.
Proof.
  unfold prior_matches. rewrite filter_reverse, length_reverse.
  apply filter_length_iff. intros x. unfold is_duplicate.
  rewrite andb_true_iff, !bool_decide_eq_true. reflexivity.
Qed.

Lemma is_stuck_eq a m :
  last (messages a) = Some m →
  truthy_opt (content m) = true →
  is_stuck a = true
  ↔ (2 ≤ length (messages a))%nat
    ∧ Z.of_nat (prior_matches a m) >= duplicate_threshold a.
Proof.
  intros Hlast Hc. unfold is_stuck. rewrite Hlast, Hc. cbn [negb].
  destruct (Z.of_nat (length (messages a)) <? 2) eqn:Hlen.
  - apply Z.ltb_lt in Hlen. split; [discriminate|]. intros [H _]. lia.
  - apply Z.ltb_ge in Hlen. rewrite duplicate_count_eq, bool_decide_eq_true.
    split; [intros H; split; [lia|exact H] | intros [_ H]; exact H].
Qed.

(** *** Claims *)

(** C1, as amended. For an agent whose step function never blocks, never
    finishes, never raises and leaves the loop counters alone, a run from
    [IDLE] with [max_steps = N] and [current_step = c] on entry returns after
    exactly [max (N - c) 0] step calls (so after exactly [N] when [c = 0] and
    [N >= 0]), leaves the agent [IDLE] with [current_step = 0], and the last
    line of the summary is the max-steps termination record. *)
Theorem run_exhausts_budget step fuel request w :
  keeps_running step →
  keeps_counters step →
  state (agent w) = IDLE →
  (Z.to_nat (max_steps (agent w) - current_step (agent w)) ≤ fuel)%nat →
  ∃ text w' tr,
    run step fuel request w = (Ret text, w')
    ∧ events w' = events w ++ tr
    ∧ Z.of_nat (count_steps tr)
      = Z.max (max_steps (agent w) - current_step (agent w)) 0
    ∧ (current_step (agent w) = 0 → 0 <= max_steps (agent w) →
       Z.of_nat (count_steps tr) = max_steps (agent w))
    ∧ state (agent w') = IDLE
    ∧ current_step (agent w') = 0
    ∧ last_line text = termination_record (max_steps (agent w)).
Proof.
  intros Hrun Hcnt Hs Hfuel.
  destruct (run_budget step Hrun Hcnt fuel request w Hs Hfuel)
    as (text & w' & tr & E & Ev & Cn & St & Cu & Ll).
  exists text, w', tr. repeat split; try assumption; rewrite Cn; lia.
Qed.

Lemma run_exhausts_budget_witness :
  ∃ text w' tr,
    run Scenarios.steady_step 3 None Scenarios.fresh_world = (Ret text, w')
    ∧ events w' = events Scenarios.fresh_world ++ tr
    ∧ Z.of_nat (count_steps tr) = Z.max (3 - 0) 0
    ∧ (0 = 0 → 0 <= 3 → Z.of_nat (count_steps tr) = 3)
    ∧ state (agent w') = IDLE
    ∧ current_step (agent w') = 0
    ∧ last_line text = termination_record 3.
Proof.
  apply (run_exhausts_budget Scenarios.steady_step 3 None
           Scenarios.fresh_world).
  - intros a. repeat split; [eexists; reflexivity|..]; intros H; exact H.
  - intros a. split; reflexivity.
  - reflexivity.
  - vm_compute. lia.
Defined.

(** C1 as the spec states it fails for an idle agent whose counter is not
    at 0: with [max_steps = 3] and [current_step = 2] the run makes one step
    call, not three. *)
Lemma budget_property_fails_midway :
  keeps_running Scenarios.steady_step
  ∧ state (agent Scenarios.midway_world) = IDLE
  ∧ max_steps (agent Scenarios.midway_world) = 3
  ∧ ¬ budget_property Scenarios.steady_step None Scenarios.midway_world.
Proof.
  assert (Hk : keeps_running Scenarios.steady_step).
  { intros a. repeat split; [eexists; reflexivity|..]; intros H; exact H. }
  split; [exact Hk|]. split; [reflexivity|]. split; [reflexivity|].
  intros (fuel & text & w' & tr & Hrun & Hev & Hcnt & _).
  destruct fuel as [|fuel].
  - pose proof (run_cutoff Scenarios.steady_step None Scenarios.midway_world
                  eq_refl eq_refl) as Hcut.
    rewrite Hrun in Hcut. discriminate.
  - destruct (run_budget Scenarios.steady_step Hk
                (λ a, conj eq_refl eq_refl) (S fuel) None
                Scenarios.midway_world eq_refl)
      as (text2 & w2 & tr2 & Hrun2 & Hev2 & Hcnt2 & _).
    { vm_compute. lia. }
    rewrite Hrun in Hrun2. inversion Hrun2; subst.
    rewrite Hev in Hev2. apply app_inv_head in Hev2. subst tr2.
    rewrite Hcnt2 in Hcnt. vm_compute in Hcnt. discriminate.
Qed.

(** What an exception out of a run entered from [IDLE] or [BLOCKED] can
    be: one that a step call raised, as the last thing before the [ERROR]
    and prior-state assignments; the state seen afterwards is the prior
    state. *)
Lemma run_raise_from_step step fuel request w e w' :
  state (agent w) = IDLE ∨ state (agent w) = BLOCKED →
  run step fuel request w = (Raise e, w') →
  (∃ b0 b tr,
      step b0 = (Raise e, b)
      ∧ events w'
        = events w ++ tr
          ++ [EvStepRaised e b; EvAssignState ERROR;
              EvAssignState (prior_state (state (agent w)))])
  ∧ state (agent w') = prior_state (state (agent w))
  ∧ state (agent w') ≠ ERROR.
Proof.
  intros Hs Hrun.
  destruct (run_eq step fuel request w Hs)
    as (w1 & results1 & pre & _ & _ & _ & _ & _ & _ & Ev1 & _ & _ & _ & Heq).
  rewrite Hrun in Heq.
  destruct (run_loop step fuel results1 w1) as [[res|e1|] wl] eqn:Hloop.
  - rewrite after_loop_eq in Heq. destruct (_ && _); discriminate.
  - inversion Heq; subst. cbn [agent events set_state state].
    apply run_loop_raise in Hloop as (tr & b0 & E & Hb).
    split; [|split].
    + exists b0, (agent wl), (pre ++ tr). split; [exact Hb|].
      rewrite E, Ev1, <- !app_assoc. reflexivity.
    + reflexivity.
    + unfold prior_state. destruct (bool_decide _); discriminate.
  - discriminate.
Qed.

(** C2. Let [run] be entered from [IDLE] or [BLOCKED], and let the step
    call of iteration [n + 1] of its loop raise [e], leaving the agent as
    [b], after [n] iterations that ran to their end. Then [run] raises that
    same [e] to its caller. What it did, in order: the [n] earlier step
    calls, the step call that raised, the assignment of [ERROR], the
    assignment of the prior state (the state held on entering the context);
    no sandbox cleanup. The agent the caller then sees is [b] with the prior
    state, so its state is the prior state and not [ERROR]. *)
Theorem step_exception_reverts_state step n fuel request w e b :
  state (agent w) = IDLE ∨ state (agent w) = BLOCKED →
  raises_after step n (loop_entry request (agent w)) e b →
  (n < fuel)%nat →
  ∃ w' tr,
    run step fuel request w = (Raise e, w')
    ∧ events w'
      = events w ++ tr
        ++ [EvStepRaised e b; EvAssignState ERROR;
            EvAssignState (prior_state (state (agent w)))]
    ∧ count_steps tr = n
    ∧ count_sandbox_cleanups tr = 0%nat
    ∧ agent w' = set_state (prior_state (state (agent w))) b
    ∧ state (agent w') = prior_state (state (agent w))
    ∧ state (agent w') ≠ ERROR.
Proof.
  intros Hs Hraise Hfuel.
  destruct (run_raises_with_loop step fuel request w Hs)
    as (results1 & pre & Cpre & Spre & Hrun).
  destruct (run_loop_raises step n _ e b Hraise fuel results1
              (mkWorld (loop_entry request (agent w)) (events w ++ pre)
                 (mcp_session w))
              eq_refl Hfuel)
    as (tr & Hloop & Ctr & Str & _).
  apply Hrun in Hloop. cbn [agent events mcp_session] in Hloop.
  eexists _, (pre ++ tr). split; [exact Hloop|].
  cbn [agent events state set_state].
  rewrite count_steps_app, count_sandbox_cleanups_app, Cpre, Spre, Ctr, Str.
  repeat split.
  - rewrite <- !app_assoc. reflexivity.
  - unfold prior_state. destruct (bool_decide _); discriminate.
Qed.

Lemma step_exception_reverts_state_witness :
  ∃ w' tr,
    run Scenarios.flaky_step 3 None Scenarios.fresh_world
    = (Raise (mkExn "TimeoutError" "t"), w')
    ∧ events w'
      = events Scenarios.fresh_world ++ tr
        ++ [EvStepRaised (mkExn "TimeoutError" "t")
              (mkAgent "ScholarManus" None [] RUNNING 3 2 None false 2);
            EvAssignState ERROR;
            EvAssignState (prior_state IDLE)]
    ∧ count_steps tr = 1%nat
    ∧ count_sandbox_cleanups tr = 0%nat
    ∧ agent w'
      = set_state (prior_state IDLE)
          (mkAgent "ScholarManus" None [] RUNNING 3 2 None false 2)
    ∧ state (agent w') = prior_state IDLE
    ∧ state (agent w') ≠ ERROR.
Proof.
  apply (step_exception_reverts_state Scenarios.flaky_step 1 3 None
           Scenarios.fresh_world).
  - left. reflexivity.
  - eapply raises_later;
      [reflexivity | reflexivity | discriminate
      | apply raises_now; reflexivity].
  - lia.
Defined.

(** C5. Whenever [run] returns, it was entered from [IDLE] or [BLOCKED] and
    the last state assignment it made is the one of the [finally] clause,
    which restores the state held on entering the context: [IDLE] for a fresh
    run, [RUNNING] for a run resumed from [BLOCKED]. So [run] never returns
    in state [BLOCKED]; and when the last step call of the run blocked, the
    [block_reason] and [user_input_required] it set are still in place. *)
Theorem run_returns_in_prior_state step fuel request w text w' :
  run step fuel request w = (Ret text, w') →
  (state (agent w) = IDLE ∧ state (agent w') = IDLE
   ∨ state (agent w) = BLOCKED ∧ state (agent w') = RUNNING)
  ∧ state (agent w') ≠ BLOCKED
  ∧ ∃ tr,
      events w' = events w ++ tr
      ∧ last_assign tr = Some (state (agent w'))
      ∧ ∀ b, last_step tr = Some b → state b = BLOCKED →
             block_reason (agent w') = block_reason b
             ∧ user_input_required (agent w') = user_input_required b
             ∧ current_step (agent w') = current_step b.
Proof.
  intros Hrun.
  assert (Hs : state (agent w) = IDLE ∨ state (agent w) = BLOCKED).
  { destruct (decide (state (agent w) = IDLE)) as [|n1]; [auto|].
    destruct (decide (state (agent w) = BLOCKED)) as [|n2]; [auto|].
    unfold run in Hrun.
    rewrite bind_eq, (check_runnable_raise w n1 n2) in Hrun. discriminate. }
  destruct (run_eq step fuel request w Hs)
    as (w1 & results1 & pre & _ & _ & _ & _ & _ & _ & Ev1 & _ & Lp & _ & Heq).
  rewrite Hrun in Heq.
  destruct (run_loop step fuel results1 w1) as [[res|e1|] wl] eqn:Hloop;
    try discriminate.
  apply run_loop_blocked in Hloop as (tr & E & Hlast).
  rewrite after_loop_eq in Heq.
  assert (HP : state (agent w) = IDLE ∧ prior_state (state (agent w)) = IDLE
               ∨ state (agent w) = BLOCKED
                 ∧ prior_state (state (agent w)) = RUNNING).
  { destruct Hs as [Hs|Hs]; rewrite Hs; auto. }
  destruct (bool_decide (current_step (agent wl) >= max_steps (agent wl))
            && bool_decide (state (agent wl) ≠ BLOCKED)) eqn:Hcond.
  - inversion Heq; subst. cbn [agent events set_state state block_reason
                               user_input_required current_step].
    split; [tauto|]. split.
    { destruct HP as [[_ ->]|[_ ->]]; discriminate. }
    exists (pre ++ tr ++ [EvAssignState IDLE;
                          EvAssignState (prior_state (state (agent w)));
                          EvSandboxCleanup]).
    rewrite E, Ev1, <- !app_assoc. split; [reflexivity|].
    split.
    { rewrite !last_assign_app. reflexivity. }
    intros b Hb Hblk. rewrite !last_step_app in Hb. cbn in Hb.
    rewrite Lp in Hb. destruct (last_step tr) as [b'|] eqn:Ltr; [|discriminate].
    inversion Hb; subst b'. rewrite (Hlast b eq_refl Hblk) in Hcond.
    rewrite (bool_decide_eq_false_2 (state b ≠ BLOCKED)) in Hcond by tauto.
    rewrite andb_false_r in Hcond. discriminate.
  - inversion Heq; subst. cbn [agent events set_state state block_reason
                               user_input_required current_step].
    split; [tauto|]. split.
    { destruct HP as [[_ ->]|[_ ->]]; discriminate. }
    exists (pre ++ tr ++ [EvAssignState (prior_state (state (agent w)));
                          EvSandboxCleanup]).
    rewrite E, Ev1, <- !app_assoc. split; [reflexivity|].
    split.
    { rewrite !last_assign_app. reflexivity. }
    intros b Hb Hblk. rewrite !last_step_app in Hb. cbn in Hb.
    rewrite Lp in Hb. destruct (last_step tr) as [b'|] eqn:Ltr; [|discriminate].
    inversion Hb; subst b'. rewrite (Hlast b eq_refl Hblk). auto.
Qed.

Lemma run_returns_in_prior_state_witness :
  let w := Scenarios.fresh_world in
  let w' := (run Scenarios.asking_step 1 None w).2 in
  (state (agent w) = IDLE ∧ state (agent w') = IDLE
   ∨ state (agent w) = BLOCKED ∧ state (agent w') = RUNNING)
  ∧ state (agent w') ≠ BLOCKED
  ∧ ∃ tr,
      events w' = events w ++ tr
      ∧ last_assign tr = Some (state (agent w'))
      ∧ ∀ b, last_step tr = Some b → state b = BLOCKED →
             block_reason (agent w') = block_reason b
             ∧ user_input_required (agent w') = user_input_required b
             ∧ current_step (agent w') = current_step b.
Proof.
  intros w w'.
  apply (run_returns_in_prior_state Scenarios.asking_step 1 None w
           (summary ["Step 1: ask"; "Blocked: need input";
                     "Waiting for user input to continue"]) w').
  reflexivity.
Defined.

(** Supporting facts for C3: the constructor defaults, [block] and [unblock]
    keep the invariant. *)
Lemma new_agent_block_invariant n : block_invariant (new_agent n).
Proof. unfold block_invariant. cbn. split; [congruence|discriminate]. Qed.

Lemma block_block_invariant reason u a : block_invariant (block reason u a).
Proof. unfold block_invariant. cbn. split; [reflexivity|discriminate]. Qed.

Lemma unblock_block_invariant user_input a :
  block_invariant a → block_invariant (unblock user_input a).
Proof.
  intros Ha. unfold unblock. case_bool_decide as Hb; [exact Ha|].
  unfold block_invariant. cbn. split; [congruence|discriminate].
Qed.

(** C3 (the code departs from it). After a fresh run whose first step called
    [block], the agent is [IDLE] and still carries the block reason. *)
Theorem blocked_run_breaks_block_invariant :
  let w := Scenarios.fresh_world in
  let w' := (run Scenarios.asking_step 1 None w).2 in
  block_invariant (agent w)
  ∧ (∃ text, (run Scenarios.asking_step 1 None w).1 = Ret text)
  ∧ state (agent w') = IDLE
  ∧ block_reason (agent w') = Some "need input"
  ∧ ¬ block_invariant (agent w').
Proof.
  cbv zeta. split; [|split; [|split; [|split]]].
  - split; [intros H; exfalso; apply H; reflexivity | discriminate].
  - eexists. reflexivity.
  - reflexivity.
  - reflexivity.
  - intros [H _]. assert (IDLE = BLOCKED) by (apply H; discriminate).
    discriminate.
Qed.

(** A run resumed from [BLOCKED] without [unblock] ends in [RUNNING], with
    the block reason still in place. *)
Lemma resumed_run_ends_running :
  let w' := (run Scenarios.steady_step 2 None Scenarios.blocked_world).2 in
  state (agent w') = RUNNING
  ∧ block_reason (agent w') = Some "need input"
  ∧ current_step (agent w') = 0.
Proof. cbv zeta. repeat split; reflexivity. Qed.

(** C10, as amended. When the most recent message of the log is a non-empty
    assistant message, [is_stuck] is true exactly when the log holds at least
    two messages and the number of earlier assistant messages with exactly
    that content is at least [duplicate_threshold]. With threshold 2 and
    assistant outputs A, B, A, A it is true after the fourth message and
    false after the third. *)
Theorem is_stuck_counts_prior_matches :
  (∀ a m,
     last (messages a) = Some m →
     role m = assistant →
     truthy_opt (content m) = true →
     (is_stuck a = true
      ↔ (2 ≤ length (messages a))%nat
        ∧ Z.of_nat (prior_matches a m) >= duplicate_threshold a))
  ∧ is_stuck (Scenarios.with_outputs 2 ["A"; "B"; "A"; "A"]%string) = true
  ∧ is_stuck (Scenarios.with_outputs 2 ["A"; "B"; "A"]%string) = false.
Proof.
  split; [|split; reflexivity].
  intros a m Hlast _ Hc. apply is_stuck_eq; assumption.
Qed.

Lemma is_stuck_counts_prior_matches_witness :
  is_stuck (Scenarios.with_outputs 2 ["A"; "B"; "A"; "A"]%string) = true
  ↔ (2 ≤ 4)%nat ∧ 2 >= 2.
Proof.
  apply (proj1 is_stuck_counts_prior_matches
           (Scenarios.with_outputs 2 ["A"; "B"; "A"; "A"]%string)
           (assistant_message "A" None)); reflexivity.
Defined.

(** C10 as the spec states it fails on a log of one message when the
    threshold is 0: no earlier message matches, 0 >= 0, yet the guard on the
    log length makes [is_stuck] false. *)
Lemma stuck_property_fails_on_single_message :
  ¬ stuck_property (Scenarios.with_outputs 0 ["A"%string]).
Proof.
  intros H.
  specialize (H (assistant_message "A" None) eq_refl eq_refl eq_refl).
  destruct H as [_ H]. vm_compute in H.
  assert (false = true) by (apply H; discriminate). discriminate.
Qed.

End AgentFacts.

(** ** The schema reconciler and the cleanup on exit *)

Module MCPFacts.

Import Agent MCP.

Section Reconciler.

Context {Schema : Type} `{!EqDecision Schema}.

Lemma nonempty_spec {A} (l : list A) : nonempty l = true ↔ l ≠ [].
Proof. destruct l; cbn; split; congruence. Qed.

(** What [tool_changes] computes, by membership. *)
Lemma tool_changes_spec (L C : gmap string Schema) :
  let '(added, removed, changed) := tool_changes L C in
  (∀ n, n ∈ added ↔ n ∈ dom L ∧ n ∉ dom C)
  ∧ (∀ n, n ∈ removed ↔ n ∈ dom C ∧ n ∉ dom L)
  ∧ (∀ n, n ∈ changed ↔ n ∈ dom L ∧ n ∈ dom C ∧ L !! n ≠ C !! n)
  ∧ NoDup added ∧ NoDup removed ∧ NoDup changed.
Proof.
  unfold tool_changes. split; [|split; [|split; [|split; [|split]]]].
  - intros n. rewrite elem_of_elements. set_solver.
  - intros n. rewrite elem_of_elements. set_solver.
  - intros n. rewrite list_elem_of_filter, elem_of_elements,
      elem_of_intersection. tauto.
  - apply NoDup_elements.
  - apply NoDup_elements.
  - apply NoDup_filter, NoDup_elements.
Qed.

(** The live schemas: the last entry listed under a name is the one kept;
    when the names listed are distinct, the map holds exactly the listed
    entries. *)
Lemma schemas_of_snoc (tools : list (string * Schema)) t :
  schemas_of (tools ++ [t]) = <[t.1 := t.2]> (schemas_of tools).
Proof. unfold schemas_of. rewrite foldl_app. reflexivity. Qed.

Lemma schemas_of_lookup (tools : list (string * Schema)) :
  NoDup tools.*1 →
  ∀ n s, schemas_of tools !! n = Some s ↔ (n, s) ∈ tools.
Proof.
  induction tools as [|[k v] tools IH] using rev_ind; intros Hnd n s.
  - unfold schemas_of. cbn. rewrite lookup_empty.
    split; [discriminate|]. intros H. apply elem_of_nil in H. contradiction.
  - rewrite fmap_app in Hnd. cbn in Hnd.
    apply NoDup_app in Hnd as (Hnd & Hk & _).
    rewrite schemas_of_snoc, elem_of_app, list_elem_of_singleton. cbn.
    destruct (decide (k = n)) as [->|Hne].
    + rewrite lookup_insert_eq. split.
      * intros H. inversion H. auto.
      * intros [H|H]; [|inversion H; reflexivity].
        exfalso. apply (Hk n); [|apply list_elem_of_singleton; reflexivity].
        apply list_elem_of_fmap. exists (n, s). auto.
    + rewrite lookup_insert_ne by exact Hne. rewrite (IH Hnd). split.
      * auto.
      * intros [H|H]; [exact H|]. inversion H. congruence.
Qed.

Lemma refresh_tools_eq tools (a : MCPAgent Schema) :
  let L := schemas_of tools in
  let '(added, removed, changed) := tool_changes L (tool_schemas a) in
  ∃ a', _refresh_tools (Some tools) a = ((added, removed), a')
        ∧ tool_schemas a' = L
        ∧ messages (base a')
          = messages (base a) ++ announcements added removed
        ∧ logged_changes (log a') = logged_changes (log a) ++ changed.
Proof.
  cbv zeta. unfold _refresh_tools, announcements.
  destruct (tool_changes (schemas_of tools) (tool_schemas a))
    as [[added removed] changed].
  eexists. split; [reflexivity|].
  destruct added, removed, changed; cbn; unfold add_message, logged_changes;
    rewrite ?app_nil_r, ?flat_map_app, <- ?app_assoc; cbn;
    rewrite ?app_nil_r; auto.
Qed.

End Reconciler.

(** C8. One reconciliation pass with the stored schemas [C] and the live
    schemas [L] (what the server lists) returns [added] and [removed], the
    names of [L] not in [C] and of [C] not in [L]; the names it logs as
    changed are those in both whose schemas differ; the stored schemas
    become [L], which holds exactly the listed entries when their names are
    distinct; and the message log grows by one system message naming the
    added tools when there are any, then one naming the removed tools when
    there are any. On the example of the spec: added c, removed b, nothing
    changed, stored schemas a: s1 and c: s3. *)
Theorem refresh_tools_reconciles :
  (∀ (Schema : Type) (Heq : EqDecision Schema)
     (tools : list (string * Schema)) (a : MCPAgent Schema),
     let L := schemas_of tools in
     let C := tool_schemas a in
     (NoDup tools.*1 → ∀ n s, L !! n = Some s ↔ (n, s) ∈ tools)
     ∧ ∃ added removed changed a',
       tool_changes L C = (added, removed, changed)
       ∧ _refresh_tools (Some tools) a = ((added, removed), a')
       ∧ (∀ n, n ∈ added ↔ n ∈ dom L ∧ n ∉ dom C)
       ∧ (∀ n, n ∈ removed ↔ n ∈ dom C ∧ n ∉ dom L)
       ∧ (∀ n, n ∈ changed ↔ n ∈ dom L ∧ n ∈ dom C ∧ L !! n ≠ C !! n)
       ∧ tool_schemas a' = L
       ∧ logged_changes (log a') = logged_changes (log a) ++ changed
       ∧ messages (base a')
         = messages (base a)
           ++ (if nonempty added then
                 [system_message
                    ("New tools available: " +:+ join ", " added) None]
               else [])
           ++ (if nonempty removed then
                 [system_message
                    ("Tools no longer available: " +:+ join ", " removed)
                    None]
               else []))
  ∧ (let r := _refresh_tools (Some Scenarios.live_tools)
                Scenarios.cached_agent in
     tool_changes (schemas_of Scenarios.live_tools)
       (tool_schemas Scenarios.cached_agent)
     = (["c"], ["b"], [])
     ∧ r.1 = (["c"], ["b"])
     ∧ tool_schemas r.2 = <["a" := "s1"]> (<["c" := "s3"]> ∅)
     ∧ content <$> messages (base r.2)
       = [Some "New tools available: c";
          Some "Tools no longer available: b"])%string.
Proof.
  split.
  - intros Schema Heq tools a L C.
    split; [apply schemas_of_lookup|].
    pose proof (tool_changes_spec L C) as Hspec.
    pose proof (refresh_tools_eq tools a) as Heq'. cbv zeta in Heq'.
    fold L C in Heq'.
    destruct (tool_changes L C) as [[added removed] changed].
    destruct Hspec as (Ha & Hr & Hc & _).
    destruct Heq' as (a' & E & Hs & Hm & Hl).
    exists added, removed, changed, a'.
    split; [reflexivity|]. split; [exact E|]. split; [exact Ha|].
    split; [exact Hr|]. split; [exact Hc|]. split; [exact Hs|].
    split; [exact Hl|]. rewrite Hm. reflexivity.
  - vm_compute. repeat split; reflexivity.
Qed.

Lemma refresh_tools_reconciles_witness :
  schemas_of Scenarios.live_tools !! "c"%string = Some "s3"%string
  ↔ ("c", "s3")%string ∈ Scenarios.live_tools.
Proof.
  apply (proj1 (proj1 refresh_tools_reconciles string _ Scenarios.live_tools
                  Scenarios.cached_agent)).
  cbn. apply NoDup_cons. split.
  - intros H. apply list_elem_of_singleton in H. discriminate.
  - apply NoDup_singleton.
Defined.

(** C4 (the code departs from it). On a fresh run whose first step called
    [block], [BaseAgent.run] still cleans up the sandbox once before it
    returns, and [MCPAgent.run] on top of it also disconnects the session;
    on a run whose step raised, [BaseAgent.run] does not clean up the
    sandbox at all. *)
Theorem blocked_run_still_cleans_up :
  let w := Scenarios.fresh_world in
  let blocked := (Agent.run Scenarios.asking_step 1 None w).2 in
  let wrapped := (MCP.run (Agent.run Scenarios.asking_step 1) None w).2 in
  let failed := (Agent.run Scenarios.failing_step 1 None w).2 in
  (∃ b, last_step (events blocked) = Some b ∧ state b = BLOCKED)
  ∧ count_sandbox_cleanups (events blocked) = 1
  ∧ count_sandbox_cleanups (events wrapped) = 1
  ∧ count_disconnects (events wrapped) = 1
  ∧ mcp_session wrapped = false
  ∧ count_sandbox_cleanups (events failed) = 0.
Proof.
  cbv zeta. split; [eexists; split; reflexivity|].
  repeat split; reflexivity.
Qed.

End MCPFacts.

(** ** The tool federation layer *)

Module FederationFacts.

Import Federation.

Lemma split_first_dot_app c t :
  split_first_dot c = None →
  split_first_dot (c +:+ "." +:+ t) = Some (c, t).
Proof.
  induction c as [|x c IH]; intros H.
  - reflexivity.
  - change (String x c +:+ "." +:+ t) with (String x (c +:+ "." +:+ t)).
    cbn in *. destruct (Ascii.eqb x "."); [discriminate|].
    destruct (split_first_dot c) as [[? ?]|]; [discriminate|].
    rewrite IH by reflexivity. reflexivity.
Qed.







(** *** Adding a link *)

Lemma dict_get_set {V} k (v : V) d : dict_get k (dict_set k v d) = Some v.
Proof.
  induction d as [|[k' v'] d IH]; cbn.
  - rewrite String.eqb_refl. reflexivity.
  - destruct (String.eqb k k') eqn:E; cbn.
    + rewrite String.eqb_refl. reflexivity.
    + rewrite E. exact IH.
Qed.

Lemma dict_set_keys {V} k (v : V) d :
  dict_has k d = true → fst <$> dict_set k v d = fst <$> d.
Proof.
  unfold dict_has. induction d as [|[k' v'] d IH]; cbn; [discriminate|].
  destruct (String.eqb k k') eqn:E; cbn.
  - intros _. apply String.eqb_eq in E. subst. reflexivity.
  - intros H. rewrite IH by exact H. reflexivity.
Qed.

Lemma dict_get_renamed k d :
  dict_get k (map (λ e, (e.1, rename_tools e.1 e.2)) d)
  = rename_tools k <$> dict_get k d.
Proof.
  induction d as [|[k' v'] d IH]; cbn; [reflexivity|].
  destruct (String.eqb k k') eqn:E; [|exact IH].
  apply String.eqb_eq in E. subst. reflexivity.
Qed.

Lemma renamed_keys (d : list (string * MCPClients)) :
  fst <$> map (λ e, (e.1, rename_tools e.1 e.2)) d = fst <$> d.
Proof. induction d as [|[k v] d IH]; cbn; [|rewrite IH]; reflexivity. Qed.

Section AddClient.

Variable connect_sse : string → Outcome MCPClients.
Variable connect_stdio :
  string → list string → option (list (string * string)) → Outcome MCPClients.

Lemma add_client_missing self name ct url cmd args env :
  ct = "sse"%string ∧ truthy_opt url = false
  ∨ ct = "stdio"%string ∧ truthy_opt cmd = false
  ∨ ct ≠ "sse"%string ∧ ct ≠ "stdio"%string →
  ∃ msg,
    add_client connect_sse connect_stdio self name ct url cmd args env
    = (Raise (ValueError msg), self).
Proof.
  intros [[-> H]|[[-> H]|[H1 H2]]]; unfold add_client.
  - cbn. rewrite H. cbn. eexists. reflexivity.
  - cbn. rewrite H. cbn. eexists. reflexivity.
  - apply String.eqb_neq in H1, H2. rewrite H1, H2. eexists. reflexivity.
Qed.

Lemma add_client_connected self name ct url cmd args env client :
  ct = "sse"%string ∧ truthy_opt url = true
    ∧ connect_sse (default ""%string url) = Ret client
  ∨ ct = "stdio"%string ∧ truthy_opt cmd = true
    ∧ connect_stdio (default ""%string cmd) (default [] args) env
      = Ret client →
  let r := add_client connect_sse connect_stdio self name ct url cmd args env in
  r.1 = Ret (rename_tools name client)
  ∧ dict_get name (clients r.2) = Some (rename_tools name client)
  ∧ (dict_has name (clients self) = true →
     fst <$> clients r.2 = fst <$> clients self).
Proof.
  intros H. cbv zeta.
  assert (E : add_client connect_sse connect_stdio self name ct url cmd args env
              = (Ret (default client
                        (dict_get name
                           (clients (_update_tool_map
                              (mkMulti (dict_set name client (clients self))
                                 (flat_tool_map self) (tools self)))))),
                 _update_tool_map
                   (mkMulti (dict_set name client (clients self))
                      (flat_tool_map self) (tools self)))).
  { destruct H as [(-> & Ht & Hc)|(-> & Ht & Hc)]; unfold add_client; cbn;
      rewrite Ht, Hc; reflexivity. }
  rewrite E. cbn [fst snd _update_tool_map clients].
  rewrite dict_get_renamed, dict_get_set. cbn.
  split; [reflexivity|]. split; [reflexivity|].
  intros Hreg. rewrite renamed_keys. apply dict_set_keys, Hreg.
Qed.

End AddClient.

(** C7, as amended. [add_client] raises a [ValueError] and leaves the
    federation as it was whenever the parameter its transport needs is
    missing ([server_url] for sse, [command] for stdio) or the transport
    kind is neither of the two. An id that is already registered does not
    make it fail: when the link connects, the call returns it, the link is
    registered under the id, and the ids keep their order. *)
Theorem add_client_failures connect_sse connect_stdio self name ct url cmd
    args env :
  let r := add_client connect_sse connect_stdio self name ct url cmd args env in
  (ct = "sse"%string ∧ truthy_opt url = false
   ∨ ct = "stdio"%string ∧ truthy_opt cmd = false
   ∨ ct ≠ "sse"%string ∧ ct ≠ "stdio"%string →
   add_fails r self ∧ ∃ msg, r.1 = Raise (ValueError msg))
  ∧ (∀ client,
       dict_has name (clients self) = true →
       ct = "sse"%string ∧ truthy_opt url = true
         ∧ connect_sse (default ""%string url) = Ret client
       ∨ ct = "stdio"%string ∧ truthy_opt cmd = true
         ∧ connect_stdio (default ""%string cmd) (default [] args) env
           = Ret client →
       r.1 = Ret (rename_tools name client)
       ∧ dict_get name (clients r.2) = Some (rename_tools name client)
       ∧ fst <$> clients r.2 = fst <$> clients self).
Proof.
  cbv zeta. split.
  - intros H.
    destruct (add_client_missing connect_sse connect_stdio self name ct url
                cmd args env H) as [msg E].
    rewrite E. split; [split; [eexists|]; reflexivity|].
    exists msg. reflexivity.
  - intros client Hreg H.
    destruct (add_client_connected connect_sse connect_stdio self name ct url
                cmd args env client H) as (H1 & H2 & H3).
    auto.
Qed.

Lemma add_client_failures_witness :
  let r := add_client Scenarios.sse_server Scenarios.stdio_server
             Scenarios.web_docs "papers" "sse" None None None None in
  add_fails r Scenarios.web_docs ∧ ∃ msg, r.1 = Raise (ValueError msg).
Proof.
  apply (proj1 (add_client_failures Scenarios.sse_server
                  Scenarios.stdio_server Scenarios.web_docs "papers" "sse"
                  None None None None)).
  left. split; reflexivity.
Defined.

(** C7 as the spec states it fails for an id that is already registered:
    adding a second link under [web] returns normally and replaces the
    first. *)
Lemma add_client_accepts_registered_id :
  let r := add_client Scenarios.sse_server Scenarios.stdio_server
             Scenarios.web_docs "web" "stdio" None (Some "python")
             (Some ["fetch"]) None in
  dict_has "web" (clients Scenarios.web_docs) = true
  ∧ ¬ add_fails r Scenarios.web_docs.
Proof.
  cbv zeta. split; [reflexivity|].
  intros [[e He] _]. vm_compute in He. discriminate.
Qed.

End FederationFacts.

(** ** The blocking classifier *)

Module ClassifierFacts.

Import Classifier.

(** *** The matcher decides the patterns *)

Section Matching.

Variable unicode_word : N → bool.

Local Abbreviation Matches := (Matches unicode_word).
Local Abbreviation deriv := (deriv unicode_word).
Local Abbreviation match_here := (match_here unicode_word).
Local Abbreviation search := (search unicode_word).

Lemma nullable_spec r : nullable r = true ↔ Matches r [].
Proof.
  split.
  - induction r; cbn; intros H; try discriminate.
    + constructor.
    + apply andb_true_iff in H as [H1 H2].
      change (@nil N) with (@nil N ++ []). constructor; auto.
    + apply orb_true_iff in H as [H|H]; [apply MAltL | apply MAltR]; auto.
    + constructor.
  - intros H. remember [] as s eqn:Es.
    induction H; cbn; subst; try discriminate; try reflexivity.
    + apply app_eq_nil in Es as [-> ->]. rewrite IHMatches1, IHMatches2; auto.
    + rewrite IHMatches; auto.
    + rewrite IHMatches; auto. apply orb_true_r.
Qed.

Lemma Matches_Fail s : ¬ Matches Fail s.
Proof. intros H. inversion H. Qed.

Lemma Matches_Seq_inv r1 r2 s :
  Matches (Seq r1 r2) s →
  ∃ s1 s2, s = s1 ++ s2 ∧ Matches r1 s1 ∧ Matches r2 s2.
Proof. intros H. inversion H; subst. eauto. Qed.

Lemma Matches_Alt_inv r1 r2 s :
  Matches (Alt r1 r2) s → Matches r1 s ∨ Matches r2 s.
Proof. intros H. inversion H; subst; auto. Qed.

Lemma Matches_Eps_inv s : Matches Eps s → s = [].
Proof. intros H. inversion H. reflexivity. Qed.

Lemma Matches_Eps_l r s : Matches r s → Matches (Seq Eps r) s.
Proof.
  intros H. change s with ([] ++ s). constructor; [constructor | exact H].
Qed.

Lemma Matches_cons_l r1 r2 c s1 s2 :
  Matches r1 (c :: s1) → Matches r2 s2 → Matches (Seq r1 r2) (c :: s1 ++ s2).
Proof.
  intros H1 H2. change (c :: s1 ++ s2) with ((c :: s1) ++ s2).
  constructor; assumption.
Qed.

Lemma mk_seq_spec r1 r2 s : Matches (mk_seq r1 r2) s ↔ Matches (Seq r1 r2) s.
Proof.
  split.
  - destruct r1, r2; cbn; intros H;
      first [ exact H
            | exfalso; exact (Matches_Fail _ H)
            | apply Matches_Eps_l; exact H ].
  - intros H. destruct (Matches_Seq_inv _ _ _ H) as (s1 & s2 & -> & H1 & H2).
    destruct r1, r2; cbn;
      first [ exact H
            | exfalso; exact (Matches_Fail _ H1)
            | exfalso; exact (Matches_Fail _ H2)
            | apply Matches_Eps_inv in H1; subst; exact H2 ].
Qed.

Lemma mk_alt_spec r1 r2 s : Matches (mk_alt r1 r2) s ↔ Matches (Alt r1 r2) s.
Proof.
  split.
  - destruct r1, r2; cbn; intros H;
      first [ exact H | apply MAltR; exact H | apply MAltL; exact H ].
  - intros H. apply Matches_Alt_inv in H as [H|H]; destruct r1, r2; cbn;
      first [ exact H
            | exfalso; exact (Matches_Fail _ H)
            | apply MAltL; exact H
            | apply MAltR; exact H ].
Qed.

(** A non-empty match of a star starts with a non-empty match of its
    body. *)
Lemma star_cons r c s :
  Matches (Star r) (c :: s) →
  ∃ s1 s2, s = s1 ++ s2 ∧ Matches r (c :: s1) ∧ Matches (Star r) s2.
Proof.
  intros H. remember (Star r) as r' eqn:Er. remember (c :: s) as cs eqn:Es.
  revert c s Es. induction H; intros c0 s0 Es; try discriminate.
  inversion Er; subst. destruct s1 as [|c1 s1]; cbn in Es.
  - apply IHMatches2; auto.
  - inversion Es; subst. exists s1, s2. auto.
Qed.

Lemma deriv_spec r : ∀ c s, Matches (deriv c r) s ↔ Matches r (c :: s).
Proof.
  induction r as [| |cc|r1 IH1 r2 IH2|r1 IH1 r2 IH2|r IH]; intros c s; cbn.
  - split; intros H; inversion H.
  - split; intros H; inversion H.
  - destruct (class_has unicode_word cc c) eqn:E; split; intros H.
    + apply Matches_Eps_inv in H. subst. constructor. exact E.
    + inversion H; subst. constructor.
    + inversion H.
    + inversion H; subst. congruence.
  - destruct (nullable r1) eqn:En.
    + rewrite mk_alt_spec. split; intros H.
      * apply Matches_Alt_inv in H as [H|H].
        -- apply mk_seq_spec, Matches_Seq_inv in H as (s1 & s2 & -> & H1 & H2).
           apply Matches_cons_l; [apply IH1|]; assumption.
        -- change (c :: s) with ([] ++ c :: s).
           constructor; [apply nullable_spec, En | apply IH2, H].
      * apply Matches_Seq_inv in H as (s1 & s2 & Es & H1 & H2).
        destruct s1 as [|c1 s1]; cbn in Es.
        -- subst s2. apply MAltR. apply IH2. exact H2.
        -- inversion Es; subst. apply MAltL. apply mk_seq_spec.
           constructor; [apply IH1|]; assumption.
    + rewrite mk_seq_spec. split; intros H.
      * apply Matches_Seq_inv in H as (s1 & s2 & -> & H1 & H2).
        apply Matches_cons_l; [apply IH1|]; assumption.
      * apply Matches_Seq_inv in H as (s1 & s2 & Es & H1 & H2).
        destruct s1 as [|c1 s1]; cbn in Es.
        -- apply nullable_spec in H1. congruence.
        -- inversion Es; subst. constructor; [apply IH1|]; assumption.
  - rewrite mk_alt_spec. split; intros H;
      apply Matches_Alt_inv in H as [H|H].
    + apply MAltL, IH1. assumption.
    + apply MAltR, IH2. assumption.
    + apply MAltL, IH1. assumption.
    + apply MAltR, IH2. assumption.
  - rewrite mk_seq_spec. split; intros H.
    + apply Matches_Seq_inv in H as (s1 & s2 & -> & H1 & H2).
      change (c :: s1 ++ s2) with ((c :: s1) ++ s2).
      constructor; [apply IH|]; assumption.
    + apply star_cons in H as (s1 & s2 & -> & H1 & H2).
      constructor; [apply IH|]; assumption.
Qed.

(** [match_here]: a prefix of the text matches. *)
Lemma match_here_spec s : ∀ r,
  match_here r s = true ↔ ∃ m rest, s = m ++ rest ∧ Matches r m.
Proof.
  induction s as [|c s IH]; intros r; cbn.
  - rewrite orb_false_r, nullable_spec. split.
    + intros H. exists [], []. auto.
    + intros (m & rest & E & H). symmetry in E.
      apply app_eq_nil in E as [-> ->]. exact H.
  - rewrite orb_true_iff, nullable_spec, IH. split.
    + intros [H|(m & rest & -> & H)].
      * exists [], (c :: s). auto.
      * exists (c :: m), rest. split; [reflexivity|]. apply deriv_spec, H.
    + intros (m & rest & E & H). destruct m as [|c' m]; cbn in E.
      * left. exact H.
      * inversion E; subst. right. exists m, rest.
        split; [reflexivity|]. apply deriv_spec, H.
Qed.

(** [search]: some stretch of the text matches. *)
Lemma search_spec r s :
  search r s = true ↔ ∃ before m after, s = before ++ m ++ after ∧ Matches r m.
Proof.
  induction s as [|c s IH]; cbn [Classifier.search].
  - rewrite orb_false_r, match_here_spec. split.
    + intros (m & rest & E & H). exists [], m, rest. auto.
    + intros (b & m & a & E & H). symmetry in E.
      apply app_eq_nil in E as [-> E]. exists m, a. auto.
  - rewrite orb_true_iff, match_here_spec, IH. split.
    + intros [(m & rest & E & H)|(b & m & a & -> & H)].
      * exists [], m, rest. auto.
      * exists (c :: b), m, a. auto.
    + intros (b & m & a & E & H). destruct b as [|c' b]; cbn in E.
      * left. exists m, a. auto.
      * inversion E; subst. right. exists b, m, a. auto.
Qed.

End Matching.

(** The literal of the claim, decoded. *)
Lemma name_request_code_points :
  u "请提供您的姓名？"
  = [35831; 25552; 20379; 24744; 30340; 22995; 21517; 65311]%N.
Proof. reflexivity. Qed.

(** C9. Whatever the message (and whatever the interpreter's table of word
    characters), the boolean of [_needs_user_input] is false. For the
    message "请提供您的姓名？" the reason is the message itself, which is
    not empty; for a plain statement it is empty: only the reason varies. *)
Theorem needs_user_input_is_never_true (unicode_word : N → bool) :
  (∀ message, (_needs_user_input unicode_word message).1 = false)
  ∧ _needs_user_input unicode_word (u "请提供您的姓名？")
    = (false, u "请提供您的姓名？")
  ∧ (_needs_user_input unicode_word (u "请提供您的姓名？")).2 ≠ []
  ∧ _needs_user_input unicode_word (u "Done.") = (false, []).
Proof.
  split; [|split; [|split]].
  - intros message. unfold _needs_user_input.
    destruct (negb (nonempty message) || negb (nonempty (strip message)));
      [reflexivity|].
    match goal with |- context [if negb (nonempty ?l) then _ else _] =>
      destruct (negb (nonempty l)); [reflexivity|] end.
    match goal with |- (match ?l with [] => _ | _ => _ end).1 = _ =>
      destruct l; reflexivity end.
  - vm_compute. reflexivity.
  - vm_compute. discriminate.
  - vm_compute. reflexivity.
Qed.

End ClassifierFacts.
